(** * BIDS input resolution of [banana.analysis.base.BidsMixin]

    A shallow embedding of [BidsMixin.__init__] and
    [BidsMixin.get_bids_inputs] (src/banana/analysis/base.py) and the
    properties of the default/explicit input merge.

    Python objects live in a heap and are referred to by location, so that
    [copy], attribute assignment and object identity are those of the
    source; dictionaries keep Python's insertion order. *)

From Stdlib Require Import Ascii.
From stdpp Require Import base option list strings.

Set Default Proof Using "Type".

(** ** Objects and the heap *)

(** A reference to a Python object: its index in the heap. *)
Abbreviation loc := nat (only parsing).

(** A repository handle.  The resolver stores it and never looks inside. *)
Abbreviation repo_ref := nat (only parsing).

(** Modelled from the spec: the input classes [BidsInputs] and
    [BidsAssocInputs] that base.py imports from [banana.bids_], a module
    outside the verified sources.  The record has exactly the attributes
    that base.py reads or writes, each a plain attribute as in the data
    model of the specification: [name], [spec_name], [task], [_repository],
    and for an associated input its [primary] input and
    [prefixed_primary_name].  [primary = Some p] stands for
    [isinstance(inpt, BidsAssocInputs)]. *)
Record BidsInput := mkInput {
  name : string;
  spec_name : string;
  task : option string;
  _repository : option repo_ref;
  primary : option loc;
  prefixed_primary_name : option string
}.

Abbreviation heap := (list BidsInput) (only parsing).

Definition set_task (t : option string) (o : BidsInput) : BidsInput :=
  mkInput (name o) (spec_name o) t (_repository o) (primary o)
          (prefixed_primary_name o).

Definition set_repository (r : option repo_ref) (o : BidsInput) : BidsInput :=
  mkInput (name o) (spec_name o) (task o) r (primary o)
          (prefixed_primary_name o).

Definition set_prefixed_primary_name (n : string) (o : BidsInput) : BidsInput :=
  mkInput (name o) (spec_name o) (task o) (_repository o) (primary o) (Some n).

(** ** Heap computations

    A computation threads the heap and may get stuck ([None]) on a reference
    that points outside the heap, which no Python program can hold. *)
Definition M (A : Type) : Type := heap → option (A * heap).

Definition ret {A} (a : A) : M A := λ h, Some (a, h).

Definition bind {A B} (m : M A) (k : A → M B) : M B :=
  λ h, match m h with
       | Some (a, h') => k a h'
       | None => None
       end.

Definition stuck {A} : M A := λ _, None.

Notation "x ⇐ m ;; k" := (bind m (λ x, k))
  (at level 100, m at next level, right associativity,
   format "'[v' x  ⇐  m  ;;  '/' k ']'").

(** [inpt.attr]: read the object behind a reference. *)
Definition deref (l : loc) : M BidsInput :=
  λ h, match h !! l with
       | Some o => Some (o, h)
       | None => None
       end.

(** [copy(inpt)]: a shallow copy, a new object with the same attribute
    values (a copied associated input shares its primary). *)
Definition copy (l : loc) : M loc :=
  λ h, match h !! l with
       | Some o => Some (length h, h ++ [o])
       | None => None
       end.

(** [inpt.attr = v]: update the object behind a reference in place. *)
Definition setattr (l : loc) (f : BidsInput → BidsInput) : M unit :=
  λ h, match h !! l with
       | Some o => Some (tt, <[l := f o]> h)
       | None => None
       end.

(** [for x in xs: body], the loop-carried variable passed along. *)
Fixpoint for_each {A S} (xs : list A) (body : A → S → M S) (s : S) : M S :=
  match xs with
  | [] => ret s
  | x :: rest => s' ⇐ body x s ;; for_each rest body s'
  end.

(** ** Dictionaries

    A Python [dict]: keys are unique and kept in insertion order; assigning
    to a key that is present replaces its value where it stands. *)
Abbreviation dict V := (list (string * V)) (only parsing).

Fixpoint dict_get {V} (k : string) (d : dict V) : option V :=
  match d with
  | [] => None
  | (k', v) :: rest => if decide (k' = k) then Some v else dict_get k rest
  end.

(** [d[k] = v] *)
Fixpoint dict_set {V} (k : string) (v : V) (d : dict V) : dict V :=
  match d with
  | [] => [(k, v)]
  | (k', v') :: rest =>
      if decide (k' = k) then (k, v) :: rest else (k', v') :: dict_set k v rest
  end.

(** [d.update(other)] *)
Definition dict_update {V} (d other : dict V) : dict V :=
  fold_left (λ acc kv, dict_set kv.1 kv.2 acc) other d.

Definition dict_keys {V} (d : dict V) : list string := d.*1.
Definition dict_values {V} (d : dict V) : list V := d.*2.

(** ** Analysis classes *)

(** What the resolver reads of a class: the [default_bids_inputs]
    attribute, [None] when the class has no such attribute. *)
Record PyClass := mkClass {
  default_bids_inputs : option (list loc)
}.

(** An element of [cls.subcomp_specs()]: the class of the sub-analysis and
    its name-prefixing function. *)
Record SubCompSpec := mkSubComp {
  analysis_class : PyClass;
  apply_prefix : string → string
}.

(** An analysis class.  [subcomp_specs = Some specs] stands for
    [issubclass(cls, MultiAnalysis)]. *)
Record AnalysisClass := mkAnalysis {
  class_attrs : PyClass;
  subcomp_specs : option (list SubCompSpec)
}.

(** ** [BidsMixin.get_bids_inputs] *)

(** Body of the inner loop of the composite branch (lines 41-46). *)
Definition add_sub_input (spec : SubCompSpec) (inpt : loc)
    (default_inputs : dict loc) : M (dict loc) :=
  o ⇐ deref inpt ;;
  match primary o with
  | Some p =>
      inpt' ⇐ copy inpt ;;
      c ⇐ deref inpt' ;;
      match primary c with
      | Some p' =>
          po ⇐ deref p' ;;
          _ ⇐ setattr inpt'
                (set_prefixed_primary_name (apply_prefix spec (name po))) ;;
          c' ⇐ deref inpt' ;;
          ret (dict_set (apply_prefix spec (name c')) inpt' default_inputs)
      | None => stuck
      end
  | None =>
      ret (dict_set (apply_prefix spec (name o)) inpt default_inputs)
  end.

(** Body of the outer loop of the composite branch (lines 39-46). *)
Definition add_sub_analysis (spec : SubCompSpec)
    (default_inputs : dict loc) : M (dict loc) :=
  match default_bids_inputs (analysis_class spec) with
  | Some inpts => for_each inpts (add_sub_input spec) default_inputs
  | None => ret default_inputs
  end.

(** The dictionary comprehension of the simple branch (lines 49-50). *)
Definition add_named_input (i : loc) (d : dict loc) : M (dict loc) :=
  o ⇐ deref i ;; ret (dict_set (name o) i d).

(** Lines 36-52: the local [default_bids_inputs] dictionary. *)
Definition collect_defaults (cls : AnalysisClass) : M (dict loc) :=
  match subcomp_specs cls with
  | Some specs => for_each specs add_sub_analysis []
  | None =>
      match default_bids_inputs (class_attrs cls) with
      | Some inpts => for_each inpts add_named_input []
      | None => ret []
      end
  end.

(** Body of the binding loop (lines 55-59). *)
Definition bind_input (task_arg : option string) (repository : option repo_ref)
    (entry : string * loc) (inputs : dict loc) : M (dict loc) :=
  inpt ⇐ copy entry.2 ;;
  o ⇐ deref inpt ;;
  _ ⇐ (match task o, task_arg with
       | None, Some t => setattr inpt (set_task (Some t))
       | _, _ => ret tt
       end) ;;
  _ ⇐ setattr inpt (set_repository repository) ;;
  ret (dict_set entry.1 inpt inputs).

(** Lines 53-60. *)
Definition bind_inputs (task_arg : option string) (repository : option repo_ref)
    (default_inputs : dict loc) : M (dict loc) :=
  for_each default_inputs (bind_input task_arg repository) [].

Definition get_bids_inputs (cls : AnalysisClass) (task_arg : option string)
    (repository : option repo_ref) : M (dict loc) :=
  default_inputs ⇐ collect_defaults cls ;;
  bind_inputs task_arg repository default_inputs.

(** ** [BidsMixin.__init__] *)

Record Dataset := mkDataset { type : string }.

(** The [inputs] argument: omitted, a [dict], or another iterable of
    inputs. *)
Inductive InputsArg :=
| InputsNone
| InputsDict (d : dict loc)
| InputsList (l : list loc).

(** Lines 16-19. *)
Definition add_explicit_input (i : loc) (d : dict loc) : M (dict loc) :=
  o ⇐ deref i ;; ret (dict_set (spec_name o) i d).

Definition normalise_inputs (inputs : InputsArg) : M (dict loc) :=
  match inputs with
  | InputsNone => ret []
  | InputsDict d => ret d
  | InputsList l => for_each l add_explicit_input []
  end.

(** What the constructor leaves behind: the [_bids_task] attribute of the
    instance and the arguments of the call to the base constructor. *)
Record Constructed := mkConstructed {
  _bids_task : option string;
  super_name : string;
  super_dataset : Dataset;
  super_processor : nat;
  super_inputs : dict loc
}.

Definition __init__ (cls : AnalysisClass) (name_arg : string) (dataset : Dataset)
    (processor : nat) (inputs : InputsArg) (bids_task : option string)
    : M Constructed :=
  inputs1 ⇐ normalise_inputs inputs ;;
  inputs2 ⇐ (if decide (type dataset = "bids") then
               bids_inputs ⇐ get_bids_inputs cls bids_task None ;;
               ret (dict_update bids_inputs inputs1)
             else ret inputs1) ;;
  ret (mkConstructed bids_task name_arg dataset processor inputs2).

(** ** Vocabulary of the statements *)

(** The value a sequence of assignments [d[k] = v] leaves under a key: that
    of the last assignment to it. *)
Fixpoint last_entry {V} (k : string) (ws : list (string * V)) : option V :=
  match ws with
  | [] => None
  | (k', v) :: rest =>
      match last_entry k rest with
      | Some v' => Some v'
      | None => if decide (k' = k) then Some v else None
      end
  end.

(** What lines 55-58 make of a copy of [o]. *)
Definition bound (task_arg : option string) (repository : option repo_ref)
    (o : BidsInput) : BidsInput :=
  set_repository repository
    match task o, task_arg with
    | None, Some t => set_task (Some t) o
    | _, _ => o
    end.

(** The default inputs a sub-analysis declares, each with its
    specification. *)
Definition sub_declared (spec : SubCompSpec) : list (SubCompSpec * loc) :=
  match default_bids_inputs (analysis_class spec) with
  | Some inpts => (λ i, (spec, i)) <$> inpts
  | None => []
  end.

(** All default inputs of a composite class, in the order the two nested
    loops visit them. *)
Definition flat_declared (specs : list SubCompSpec) : list (SubCompSpec * loc) :=
  specs ≫= sub_declared.

(** The assignment [default_bids_inputs[key] = inpt] a declared input leads
    to: the key and the state of the object assigned.  [None] when a
    reference points outside the heap. *)
Definition simple_write (h : heap) (i : loc) : option (string * BidsInput) :=
  o ← h !! i; Some (name o, o).

Definition sub_write (h : heap) (e : SubCompSpec * loc)
    : option (string * BidsInput) :=
  o ← h !! e.2;
  match primary o with
  | Some p =>
      po ← h !! p;
      Some (apply_prefix e.1 (name o),
            set_prefixed_primary_name (apply_prefix e.1 (name po)) o)
  | None => Some (apply_prefix e.1 (name o), o)
  end.

(** The assignments of lines 36-52, in order. *)
Definition writes (cls : AnalysisClass) (h : heap)
    : option (list (string * BidsInput)) :=
  match subcomp_specs cls with
  | Some specs => mapM (sub_write h) (flat_declared specs)
  | None =>
      match default_bids_inputs (class_attrs cls) with
      | Some inpts => mapM (simple_write h) inpts
      | None => Some []
      end
  end.

(** The references a class holds to its declared default inputs. *)
Definition class_refs (cls : AnalysisClass) : list loc :=
  match subcomp_specs cls with
  | Some specs => (flat_declared specs).*2
  | None => default [] (default_bids_inputs (class_attrs cls))
  end.

(** A reference held by a Python program points to an object, and so does
    the [primary] of that object. *)
Definition ref_ok (h : heap) (l : loc) : Prop :=
  match h !! l with
  | Some o =>
      match primary o with
      | Some p => p < length h
      | None => True
      end
  | None => False
  end.

Definition class_ok (h : heap) (cls : AnalysisClass) : Prop :=
  Forall (ref_ok h) (class_refs cls).

Definition inputs_ok (h : heap) (inputs : InputsArg) : Prop :=
  match inputs with
  | InputsNone => True
  | InputsDict d => NoDup (dict_keys d)
  | InputsList l => Forall (λ i, i < length h) l
  end.

(** Successive calls of the resolver on one class. *)
Fixpoint call_many (cls : AnalysisClass)
    (args : list (option string * option repo_ref)) : M (list (dict loc)) :=
  match args with
  | [] => ret []
  | (t, r) :: rest =>
      d ⇐ get_bids_inputs cls t r ;;
      ds ⇐ call_many cls rest ;;
      ret (d :: ds)
  end.

(** What a dictionary holds: under each key of [ws] a reference to the
    object of the last assignment to that key, and nothing else. *)
Definition holds (h : heap) (d : dict loc) (ws : list (string * BidsInput))
    : Prop :=
  ∀ k, match last_entry k ws with
       | Some o => ∃ l, dict_get k d = Some l ∧ h !! l = Some o
       | None => dict_get k d = None
       end.

(** The entries [kvs] assigned so far refer to the objects of [ws]. *)
Definition stores (h : heap) (kvs : list (string * loc))
    (ws : list (string * BidsInput)) : Prop :=
  Forall2 (λ kv w, kv.1 = w.1 ∧ h !! kv.2 = Some w.2) kvs ws.

(** Where the reference assigned for a declared input of a sub-analysis
    points: to the declared object itself, or, for an associated input, to
    an object that did not exist in [h]. *)
Definition sub_place (h : heap) (e : SubCompSpec * loc) (v : loc) : Prop :=
  match h !! e.2 with
  | Some o =>
      match primary o with
      | Some _ => length h ≤ v
      | None => v = e.2
      end
  | None => False
  end.

(** Only one of the assignments [ws] is to the key [k]. *)
Definition assigned_once {V} (k : string) (ws : list (string * V)) : Prop :=
  ∀ j j', ws.*1 !! j = Some k → ws.*1 !! j' = Some k → j = j'.

(** The distinct elements of a list, each at the place of its first
    occurrence: the order in which a Python [dict] lists its keys after
    assignments made in the order of the list. *)
Fixpoint first_occurrences (ks : list string) : list string :=
  match ks with
  | [] => []
  | k :: rest => k :: filter (λ k', k' ≠ k) (first_occurrences rest)
  end.

(** * The command line: [src/banana/entrypoint.py] *)

(** ** Strings and exceptions

    A character of a Python [str] is modelled by an [ascii]. *)

(** [s.split(sep)] for a separator of one character: never the empty
    list. *)
Fixpoint str_split (sep : Ascii.ascii) (s : string) : list string :=
  match s with
  | EmptyString => [EmptyString]
  | String c rest =>
      if decide (c = sep) then EmptyString :: str_split sep rest
      else match str_split sep rest with
           | part :: parts => String c part :: parts
           | [] => [String c EmptyString]
           end
  end.

(** [sep.join(parts)] *)
Fixpoint str_join (sep : string) (parts : list string) : string :=
  match parts with
  | [] => EmptyString
  | part :: rest =>
      match rest with
      | [] => part
      | _ :: _ => part +:+ sep +:+ str_join sep rest
      end
  end.

(** [s.lstrip(c)], [s.rstrip(c)] and [s.strip(c)] for one character. *)
Fixpoint str_lstrip (c : Ascii.ascii) (s : string) : string :=
  match s with
  | EmptyString => EmptyString
  | String c' rest => if decide (c' = c) then str_lstrip c rest else s
  end.

Fixpoint str_rstrip (c : Ascii.ascii) (s : string) : string :=
  match s with
  | EmptyString => EmptyString
  | String c' rest =>
      match str_rstrip c rest with
      | EmptyString => if decide (c' = c) then EmptyString else String c' EmptyString
      | String _ _ as stripped => String c' stripped
      end
  end.

Definition str_strip (c : Ascii.ascii) (s : string) : string :=
  str_rstrip c (str_lstrip c s).

(** [c in s] *)
Fixpoint str_contains (c : Ascii.ascii) (s : string) : bool :=
  match s with
  | EmptyString => false
  | String c' rest => if decide (c' = c) then true else str_contains c rest
  end.

(** [s[n:]] *)
Fixpoint str_drop (n : nat) (s : string) : string :=
  match n, s with
  | S n', String _ rest => str_drop n' rest
  | _, _ => s
  end.

(** [c * n] *)
Fixpoint str_repeat (c : Ascii.ascii) (n : nat) : string :=
  match n with
  | 0 => EmptyString
  | S n' => String c (str_repeat c n')
  end.

(** The exceptions that leave the functions below.  [External] stands for
    an exception raised inside a function of another package. *)
Inductive Exception :=
| BananaUsageError (msg : string)
| IndexError
| ValueError
| TypeError (msg : string)
| External (e : string).

Inductive Outcome (A : Type) :=
| Returns (a : A)
| Raises (e : Exception).

Arguments Returns {A} a.
Arguments Raises {A} e.

(** ** [resolve_class] *)

(** The value of a module attribute: [None] or some other object. *)
Inductive PyValue :=
| PyNone
| PyObject (id : nat).

(** What [import_module(name)] does: it gives a module, with the value of
    [getattr(module, attr)] where the module has the attribute, or raises
    [ModuleNotFoundError], or raises something else. *)
Inductive ImportOutcome :=
| Imported (attrs : string → option PyValue)
| ModuleNotFoundError
| ImportFails (e : string).

Definition DEFAULT_STUDY_CLASS_PATH : string := "banana.analysis".

(** Lines 51-69, [None] standing for the prefix [None] of the first round;
    the result is the final value of [cls]. *)
Fixpoint resolve_loop (import_module : string → ImportOutcome)
    (module_name class_name : string) (prefixes : list (option string))
    : Outcome PyValue :=
  match prefixes with
  | [] => Returns PyNone
  | prefix :: rest =>
      let mod_name :=
        match prefix with
        | Some pre => pre +:+ "." +:+ module_name
        | None => module_name
        end in
      if decide (mod_name = "") then
        resolve_loop import_module module_name class_name rest
      else
        match import_module (str_strip "."%char mod_name) with
        | ModuleNotFoundError =>
            resolve_loop import_module module_name class_name rest
        | ImportFails e => Raises (External e)
        | Imported attrs =>
            match attrs class_name with
            | None => resolve_loop import_module module_name class_name rest
            | Some cls => Returns cls
            end
        end
  end.

Definition resolve_class (import_module : string → ImportOutcome)
    (class_str : string) (prefixes : list string) : Outcome PyValue :=
  let parts := str_split "."%char class_str in
  let module_name := str_join "." (removelast parts) in
  let class_name := List.last parts "" in
  match resolve_loop import_module module_name class_name
          (None :: (Some <$> prefixes)) with
  | Returns PyNone =>
      Raises (BananaUsageError ("Did not find class '" +:+ class_str +:+ "'"))
  | Returns cls => Returns cls
  | Raises e => Raises e
  end.

(** Lines 47-49: the module and the class that a class path names. *)
Definition module_name_of (class_str : string) : string :=
  str_join "." (removelast (str_split "."%char class_str)).

Definition class_name_of (class_str : string) : string :=
  List.last (str_split "."%char class_str) "".

(** The module names that [resolve_class] passes to [import_module], in
    order, if none of them has the class. *)
Definition candidates (class_str : string) (prefixes : list string)
    : list string :=
  (if decide (module_name_of class_str = "") then []
   else [str_strip "."%char (module_name_of class_str)])
  ++ ((λ pre, str_strip "."%char (pre +:+ "." +:+ module_name_of class_str))
        <$> prefixes).

(** The round of the loop for a module ends in [continue]. *)
Definition misses (import_module : string → ImportOutcome) (class_name : string)
    (mod_name : string) : Prop :=
  import_module mod_name = ModuleNotFoundError
  ∨ ∃ attrs, import_module mod_name = Imported attrs ∧ attrs class_name = None.

(** The module name of a round of the loop (lines 52-55), and the names that
    get past line 56, stripped as in line 58. *)
Definition mod_name_of (module_name : string) (prefix : option string) : string :=
  match prefix with
  | Some pre => pre +:+ "." +:+ module_name
  | None => module_name
  end.

Definition tried (module_name : string) (prefixes : list (option string))
    : list string :=
  omap (λ prefix,
          if decide (mod_name_of module_name prefix = "") then None
          else Some (str_strip "."%char (mod_name_of module_name prefix)))
       prefixes.

(** Lines 662-664 of [AvailableCmd.run]: the name under which a class of a
    module is listed. *)
Definition full_name (module_path cls_name : string) : string :=
  (if String.prefix DEFAULT_STUDY_CLASS_PATH module_path
   then str_drop (String.length DEFAULT_STUDY_CLASS_PATH + 1) module_path
   else module_path) +:+ "." +:+ cls_name.

(** ** [DeriveCmd.run] *)

(** The comparisons [>] and [>=] of the source are decided as [<] and
    [<=]. *)
#[global] Instance nat_gt_dec : RelDecision (@gt) := λ x y, decide (y < x).
#[global] Instance nat_ge_dec : RelDecision (@ge) := λ x y, decide (y ≤ x).

(** An argument of a dataset or processor: a word of the command line, or a
    number computed by the program. *)
Inductive PyArg :=
| ArgStr (s : string)
| ArgInt (n : Z).

(** What [DeriveCmd.run] uses of Python and of other packages:
    [os.path.join], [int] on a [str], the text that [str.format] puts for a
    tuple or list of arguments and for one argument, and [cpu_count()]. *)
Record Externals := mkExternals {
  path_join : string → string → string;
  parse_int : string → option Z;
  format_args : list PyArg → string;
  format_arg : PyArg → string;
  cpu_count : Z
}.

(** [int(arg)] *)
Definition to_int (ext : Externals) (arg : PyArg) : option Z :=
  match arg with
  | ArgInt n => Some n
  | ArgStr s => parse_int ext s
  end.

(** The constructor call that makes the dataset. *)
Inductive DatasetCall :=
| NewBidsRepo (path : string)
| NewDataset (path : string) (depth : Z)
| NewXnatDataset (server : PyArg) (user password : option PyArg)
    (cache_dir : string) (project : string).

(** The nested function [init_dataset] (lines 211-252), with the
    [scratch_dir] of the enclosing function.  The first component lists the
    directories made by [os.makedirs]. *)
Definition init_dataset (ext : Externals) (scratch_dir : string)
    (dataset_path dataset_type option_str : string) (dataset_args : list PyArg)
    (create_root : bool) : list string * Outcome DatasetCall :=
  if decide (dataset_type = "bids") then
    (if create_root then [dataset_path] else [],
     Returns (NewBidsRepo dataset_path))
  else if decide (dataset_type = "basic") then
    if decide (length dataset_args ≠ 1) then
      (@nil string, Raises (BananaUsageError
             ("Unrecognised arguments passed to '--" +:+ option_str
              +:+ "' option (" +:+ format_args ext dataset_args
              +:+ ") exactly 1 additional argument is required for "
              +:+ "'basic' type dataset (DEPTH)")))
    else
      (if create_root then [dataset_path] else [],
       match dataset_args !! 0%nat with
       | Some arg =>
           match to_int ext arg with
           | Some depth => Returns (NewDataset dataset_path depth)
           | None => Raises ValueError
           end
       | None => Raises IndexError
       end)
  else if decide (dataset_type = "xnat") then
    let nargs := length dataset_args in
    if decide (nargs < 1) then
      (@nil string, Raises (BananaUsageError
             ("Not enough arguments passed to '--" +:+ option_str
              +:+ "' option (" +:+ format_args ext dataset_args
              +:+ "), at least 1 additional argument is required for "
              +:+ "'xnat' type dataset (SERVER)")))
    else if decide (nargs > 3) then
      (@nil string, Raises (BananaUsageError
             ("Unrecognised arguments passed to '--" +:+ option_str
              +:+ "' option (" +:+ format_args ext dataset_args
              +:+ "), at most 3 additional arguments are accepted for"
              +:+ " 'xnat' type dataset (SERVER, USER, PASSWORD)")))
    else
      (@nil string, match dataset_args !! 0%nat with
           | Some server =>
               Returns (NewXnatDataset server
                          (if decide (nargs > 2) then dataset_args !! 1%nat
                           else None)
                          (if decide (nargs > 3) then dataset_args !! 2%nat
                           else None)
                          (path_join ext scratch_dir "cache") dataset_path)
           | None => Raises IndexError
           end)
  else
    (@nil string, match dataset_args !! 0%nat with
         | Some arg =>
             Raises (BananaUsageError
               ("Unrecognised dataset type provided as first argument "
                +:+ "to '--" +:+ option_str +:+ "' option ("
                +:+ format_arg ext arg +:+ ")"))
         | None => Raises IndexError
         end).

(** The constructor call that makes the processor. *)
Inductive ProcessorCall :=
| NewSingleProc (work_dir : string) (reprocess : bool)
| NewMultiProc (work_dir : string) (num_processes : PyArg) (reprocess : bool)
| NewSlurmProc (work_dir : string) (account partition : option string)
    (email : string) (reprocess : bool).

(** Lines 288-324: the choice of the processor from [args.processor];
    [email] is the address found in lines 280-286, if any. *)
Definition select_processor (ext : Externals) (processor : list string)
    (email : option string) (work_dir : string) (reprocess : bool)
    : Outcome ProcessorCall :=
  match processor !! 0%nat with
  | None => Raises IndexError
  | Some kind =>
      if decide (kind = "single") then
        Returns (NewSingleProc work_dir reprocess)
      else if decide (kind = "multi") then
        if decide (length processor > 1) then
          match processor !! 1%nat with
          | Some num_processes =>
              Returns (NewMultiProc work_dir (ArgStr num_processes) reprocess)
          | None => Raises IndexError
          end
        else if decide (length processor > 2) then
          Raises (BananaUsageError
            ("Unrecognised arguments passed to '--processor' option "
             +:+ "(" +:+ format_args ext (ArgStr <$> processor)
             +:+ ") expected at most 1 additional argument for 'multi' "
             +:+ "type processor (NUM_PROCS)"))
        else
          Returns (NewMultiProc work_dir (ArgInt (cpu_count ext)) reprocess)
      else if decide (kind = "slurm") then
        match email with
        | None =>
            Raises (BananaUsageError
              ("Email needs to be provided either via '--email' argument "
               +:+ "or set in 'EMAIL' environment variable for SLURM "
               +:+ "processor"))
        | Some email =>
            let nargs := length processor in
            if decide (nargs > 3) then
              Raises (BananaUsageError
                ("Unrecognised arguments passed to '--processor' option "
                 +:+ "with 'slurm' type ("
                 +:+ format_args ext (ArgStr <$> processor)
                 +:+ "), expected at most 2 additional "
                 +:+ "arguments [ACCOUNT, PARTITION]"))
            else
              Returns (NewSlurmProc work_dir
                         (if decide (nargs ≥ 2) then processor !! 1%nat else None)
                         (if decide (nargs ≥ 3) then processor !! 2%nat else None)
                         email reprocess)
        end
      else
        Raises (BananaUsageError
          ("Unrecognised processor type provided as first argument to "
           +:+ "'--processor' option (" +:+ kind +:+ ")"))
  end.

(** ** [AvailableCmd.run] *)

Definition DEFAULT_LINE_LENGTH : nat := 79.
Definition DEFAULT_INDENT : nat := 4.
Definition DEFAULT_SPACER : nat := 4.

(** The value of an attribute of a package or module: a class, known by its
    identity, or something that is no class. *)
Inductive PyAttr :=
| NotAClass
| AClass (cls : nat).

(** The dictionary [available], from classes to module paths. *)
Fixpoint avail_get (cls : nat) (available : list (nat * string)) : option string :=
  match available with
  | [] => None
  | (cls', path) :: rest =>
      if decide (cls' = cls) then Some path else avail_get cls rest
  end.

Fixpoint avail_set (cls : nat) (path : string) (available : list (nat * string))
    : list (nat * string) :=
  match available with
  | [] => [(cls, path)]
  | (cls', path') :: rest =>
      if decide (cls' = cls) then (cls, path) :: rest
      else (cls', path') :: avail_set cls path rest
  end.

(** Lines 637-643. *)
Definition register (cls : nat) (pkg_or_module_path : string)
    (available : list (nat * string)) : list (nat * string) :=
  match avail_get cls available with
  | None => avail_set cls pkg_or_module_path available
  | Some old_path =>
      if decide (String.length pkg_or_module_path < String.length old_path)
      then avail_set cls pkg_or_module_path available
      else available
  end.

(** The nested function [find_analysis_classes] (lines 629-645).  The
    module is given by its attributes in the order of [dir]; [is_analysis]
    says whether a class is a subclass of [Analysis] or [MultiAnalysis] and
    [has_desc] whether 'desc' is in its [__dict__].  For a value that is no
    class [issubclass] raises the [TypeError] that is passed over. *)
Definition find_analysis_classes (is_analysis has_desc : nat → bool)
    (pkg_or_module : list (string * PyAttr)) (pkg_or_module_path : string)
    (available : list (nat * string)) : list (nat * string) :=
  fold_left
    (λ available attr,
       if String.prefix "_" attr.1 then available
       else match attr.2 with
            | AClass cls =>
                if is_analysis cls && has_desc cls
                then register cls pkg_or_module_path available
                else available
            | NotAClass => available
            end)
    pkg_or_module available.

(** The calls of [find_analysis_classes] in lines 653 and 657, in the order
    in which the packages and modules are visited. *)
Definition find_all (is_analysis has_desc : nat → bool)
    (visited : list (string * list (string * PyAttr)))
    : list (nat * string) :=
  fold_left
    (λ available m, find_analysis_classes is_analysis has_desc m.2 m.1 available)
    visited [].

Definition newline : string := String (ascii_of_nat 10) EmptyString.

(** Lines 668-673: the loop over the rows.  [wrap_text], of arcana.utils,
    is a function of another package: it gives the wrapped text or raises,
    and an exception it raises leaves the loop and the command. *)
Fixpoint avail_rows (wrap_text : string → nat → nat → Outcome string)
    (desc_start : nat) (rows : list (string * string)) (msg : string)
    : Outcome string :=
  match rows with
  | [] => Returns msg
  | row :: rest =>
      match wrap_text row.2 DEFAULT_LINE_LENGTH (desc_start + DEFAULT_INDENT) with
      | Returns text =>
          avail_rows wrap_text desc_start rest
            (msg +:+ newline +:+ str_repeat " " DEFAULT_INDENT +:+ row.1
             +:+ str_repeat " " (desc_start - String.length row.1) +:+ text)
      | Raises e => Raises e
      end
  end.

(** Lines 658 and 667-674: the text that is printed for the rows
    [to_print].  [max] of no length at all raises [ValueError]. *)
Definition avail_message (wrap_text : string → nat → nat → Outcome string)
    (to_print : list (string * string)) : Outcome string :=
  match to_print with
  | [] => Raises ValueError
  | _ :: _ =>
      let desc_start :=
        max_list ((λ l, String.length l.1) <$> to_print) + DEFAULT_SPACER in
      match
        avail_rows wrap_text desc_start to_print
          (newline +:+ "The following Analysis classes are available:")
      with
      | Returns msg => Returns (msg +:+ newline)
      | Raises e => Raises e
      end
  end.

(** A class is listed for a module: the module has it under a name that
    does not begin with an underscore, and it is an analysis class with a
    description of its own. *)
Definition exposes (is_analysis has_desc : nat → bool)
    (pkg_or_module : list (string * PyAttr)) (cls : nat) : Prop :=
  is_analysis cls = true ∧ has_desc cls = true
  ∧ ∃ attr_name, (attr_name, AClass cls) ∈ pkg_or_module
                 ∧ String.prefix "_" attr_name = false.

(** One line of the table, with the wrapped description [text]. *)
Definition row_text (desc_start : nat) (row : string * string) (text : string)
    : string :=
  newline +:+ str_repeat " " DEFAULT_INDENT +:+ row.1
  +:+ str_repeat " " (desc_start - String.length row.1) +:+ text.

(** The texts of a list, one after the other. *)
Fixpoint str_concat (texts : list string) : string :=
  match texts with
  | [] => EmptyString
  | text :: rest => text +:+ str_concat rest
  end.

(** The registrations that the visits of [find_all] lead to, in order: a
    class and the path of the package or module that has it. *)
Definition listings (is_analysis has_desc : nat → bool)
    (visited : list (string * list (string * PyAttr))) : list (nat * string) :=
  visited ≫= λ m,
    omap (λ attr : string * PyAttr,
            if String.prefix "_" attr.1 then None
            else match attr.2 with
                 | AClass cls =>
                     if is_analysis cls && has_desc cls then Some (cls, m.1)
                     else None
                 | NotAClass => None
                 end)
         m.2.

(** The path kept for a class after one more registration (lines
    637-643). *)
Definition shorter (kept : option string) (path : string) : option string :=
  match kept with
  | None => Some path
  | Some old_path =>
      if decide (String.length path < String.length old_path) then Some path
      else Some old_path
  end.

(** ** Sample data *)

(** A heap with a plain input without task filter (0), an input associated
    with it whose task filter is set (1), and two inputs supplied by a
    caller (2, 3). *)
Definition ex_heap : heap :=
  [ mkInput "mag" "mag" None None None None;
    mkInput "phase" "phase" (Some "fixed") (Some 9) (Some 0) None;
    mkInput "mag" "mask" None None None None;
    mkInput "t1" "mag" None (Some 5) None None ].

Definition ex_simple : AnalysisClass :=
  mkAnalysis (mkClass (Some [0; 1])) None.

(** A simple class whose declared inputs 0 and 2 share the name "mag". *)
Definition ex_duplicates : AnalysisClass :=
  mkAnalysis (mkClass (Some [0; 2; 1])) None.

Definition ex_sub_a : SubCompSpec :=
  mkSubComp (mkClass (Some [0; 1])) (String.append "a_").

Definition ex_sub_b : SubCompSpec :=
  mkSubComp (mkClass (Some [0; 1])) (String.append "b_").

Definition ex_sub_bare : SubCompSpec :=
  mkSubComp (mkClass None) (String.append "c_").

Definition ex_composite : AnalysisClass :=
  mkAnalysis (mkClass None) (Some [ex_sub_a; ex_sub_bare; ex_sub_b]).

(** Two inputs named "mask" (0, 1) and an input named "b_mask" (2). *)
Definition ex_clash_heap : heap :=
  [ mkInput "mask" "brain_mask" None None None None;
    mkInput "mask" "mask" None None None None;
    mkInput "b_mask" "b_mask" None None None None ].

Definition ex_sub_ab : SubCompSpec :=
  mkSubComp (mkClass (Some [0])) (String.append "a_b_").

Definition ex_sub_a2 : SubCompSpec :=
  mkSubComp (mkClass (Some [1; 2])) (String.append "a_").

(** A composite class whose sub-analyses have the prefixes "a_b_" and "a_"
    and declare an input "mask" each, the second also an input "b_mask". *)
Definition ex_clash : AnalysisClass :=
  mkAnalysis (mkClass None) (Some [ex_sub_ab; ex_sub_a2]).

Definition ex_bids : Dataset := mkDataset "bids".
Definition ex_basic : Dataset := mkDataset "basic".

(** Modules for [import_module]: the package banana.analysis with a class
    [Foo] and an attribute [Nothing] that is [None], and its module
    mri.structural with a class [T1]. *)
Definition ex_import (mod_name : string) : ImportOutcome :=
  if decide (mod_name = "banana.analysis.mri.structural") then
    Imported (λ attr, if decide (attr = "T1") then Some (PyObject 1) else None)
  else if decide (mod_name = "banana.analysis") then
    Imported (λ attr, if decide (attr = "Foo") then Some (PyObject 2)
                      else if decide (attr = "Nothing") then Some PyNone
                      else None)
  else ModuleNotFoundError.

(** A [wrap_text] that refuses an indent beyond the line length and
    otherwise leaves the text as it is. *)
Definition ex_wrap (text : string) (line_length indent : nat) : Outcome string :=
  if decide (line_length < indent) then Raises (External "ArcanaUsageError")
  else Returns text.

(** Well-formedness of the sample data, by evaluation. *)
Ltac sample_ok :=
  repeat first [ apply Forall_nil_2 | apply Forall_cons_2 ];
  vm_compute; try lia; try exact I.

(** * Properties *)

(** ** The model on the sample data *)

Example resolve_simple_sample :
  get_bids_inputs ex_simple (Some "rest") (Some 7) ex_heap
  = Some ([("mag", 4); ("phase", 5)],
          ex_heap ++
          [ mkInput "mag" "mag" (Some "rest") (Some 7) None None;
            mkInput "phase" "phase" (Some "fixed") (Some 7) (Some 0) None ]).
Proof. reflexivity. Qed.

Example resolve_duplicates_sample :
  get_bids_inputs ex_duplicates None (Some 7) ex_heap
  = Some ([("mag", 4); ("phase", 5)],
          ex_heap ++
          [ mkInput "mag" "mask" None (Some 7) None None;
            mkInput "phase" "phase" (Some "fixed") (Some 7) (Some 0) None ]).
Proof. reflexivity. Qed.

Example resolve_composite_sample :
  fst <$> get_bids_inputs ex_composite (Some "rest") None ex_heap
  = Some [("a_mag", 6); ("a_phase", 7); ("b_mag", 8); ("b_phase", 9)].
Proof. reflexivity. Qed.

Example construct_bids_sample :
  fst <$> __init__ ex_simple "study" ex_bids 0 (InputsList [3; 2]) (Some "rest")
            ex_heap
  = Some (mkConstructed (Some "rest") "study" ex_bids 0
            [("mag", 3); ("phase", 5); ("mask", 2)]).
Proof. reflexivity. Qed.

Example construct_basic_sample :
  __init__ ex_simple "study" ex_basic 0 (InputsList [3; 2]) (Some "rest") ex_heap
  = Some (mkConstructed (Some "rest") "study" ex_basic 0
            [("mag", 3); ("mask", 2)], ex_heap).
Proof. reflexivity. Qed.

(** ** Dictionaries *)

Section dict_facts.
Context {V : Type}.
Implicit Types (d : dict V) (k : string) (v : V) (ws : list (string * V)).

Lemma dict_get_set d k k' v :
  dict_get k' (dict_set k v d) =
    if decide (k = k') then Some v else dict_get k' d.
Proof.
  induction d as [|[k0 v0] d IH]; simpl.
  - repeat case_decide; congruence.
  - destruct (decide (k0 = k)) as [->|Hne]; simpl.
    + repeat case_decide; congruence.
    + rewrite IH. repeat case_decide; congruence.
Qed.

Lemma dict_get_set_eq d k v : dict_get k (dict_set k v d) = Some v.
Proof. rewrite dict_get_set. by case_decide. Qed.

Lemma dict_get_set_ne d k k' v :
  k ≠ k' → dict_get k' (dict_set k v d) = dict_get k' d.
Proof. intros. rewrite dict_get_set. by case_decide. Qed.

Lemma dict_get_None d k : dict_get k d = None ↔ k ∉ dict_keys d.
Proof.
  unfold dict_keys. induction d as [|[k0 v0] d IH]; simpl.
  - split; [intros _; apply not_elem_of_nil | done].
  - rewrite not_elem_of_cons. case_decide; subst.
    + split; [done | intros [? _]; done].
    + rewrite IH. split; [intros ?; split; [congruence | done] | by intros [_ ?]].
Qed.

Lemma dict_get_is_Some d k : is_Some (dict_get k d) ↔ k ∈ dict_keys d.
Proof.
  rewrite <-not_eq_None_Some, dict_get_None.
  destruct (decide (k ∈ dict_keys d)); tauto.
Qed.

Lemma dict_get_Some_lookup d k v :
  dict_get k d = Some v → ∃ i, d !! i = Some (k, v).
Proof.
  induction d as [|[k0 v0] d IH]; simpl; [done|].
  case_decide; subst.
  - intros [= ->]. by exists 0.
  - intros [i Hi]%IH. by exists (S i).
Qed.

Lemma dict_get_lookup d i k v :
  NoDup (dict_keys d) → d !! i = Some (k, v) → dict_get k d = Some v.
Proof.
  unfold dict_keys. revert i. induction d as [|[k0 v0] d IH]; intros i; [done|].
  simpl. rewrite NoDup_cons. intros [Hk0 Hnd]. destruct i as [|i]; simpl.
  - intros [= -> ->]. by case_decide.
  - intros Hi. case_decide; subst; [|by eapply IH].
    destruct Hk0. apply list_elem_of_fmap. exists (k, v).
    split; [done|]. by eapply list_elem_of_lookup_2.
Qed.

Lemma dict_set_fresh d k v :
  k ∉ dict_keys d → dict_set k v d = d ++ [(k, v)].
Proof.
  unfold dict_keys. induction d as [|[k0 v0] d IH]; simpl; [done|].
  rewrite not_elem_of_cons. intros [? ?].
  case_decide; [congruence|]. by rewrite IH.
Qed.

Lemma dict_keys_set d k v :
  dict_keys (dict_set k v d) =
    if decide (k ∈ dict_keys d) then dict_keys d else dict_keys d ++ [k].
Proof.
  unfold dict_keys. induction d as [|[k0 v0] d IH]; [done|].
  cbn [dict_set]. destruct (decide (k0 = k)) as [->|Hne].
  - rewrite decide_True by (rewrite fmap_cons; apply list_elem_of_here). done.
  - rewrite !fmap_cons, IH. cbn [fst].
    destruct (decide (k ∈ d.*1)) as [H|H].
    + rewrite decide_True by (by apply list_elem_of_further). done.
    + rewrite decide_False; [done|].
      intros [?|?]%elem_of_cons; congruence.
Qed.

Lemma dict_set_NoDup d k v :
  NoDup (dict_keys d) → NoDup (dict_keys (dict_set k v d)).
Proof.
  intros Hnd. rewrite dict_keys_set. case_decide; [done|].
  apply NoDup_app. split_and!; [done | | apply NoDup_singleton].
  intros x Hx Hx'. apply list_elem_of_singleton in Hx'. by subst.
Qed.

Lemma dict_set_length d k v :
  length (dict_set k v d) =
    if decide (k ∈ dict_keys d) then length d else S (length d).
Proof.
  rewrite <-(length_fmap fst (dict_set k v d)).
  change (fst <$> dict_set k v d) with (dict_keys (dict_set k v d)).
  rewrite dict_keys_set. case_decide; unfold dict_keys.
  - by rewrite length_fmap.
  - rewrite length_app, length_fmap. simpl. lia.
Qed.

Lemma dict_get_update d ws k :
  dict_get k (dict_update d ws) =
    match last_entry k ws with
    | Some v => Some v
    | None => dict_get k d
    end.
Proof.
  unfold dict_update. revert d.
  induction ws as [|[k0 v0] ws IH]; intros d; simpl; [done|].
  rewrite IH. destruct (last_entry k ws); [done|].
  rewrite dict_get_set. by case_decide.
Qed.

Lemma dict_update_NoDup d ws :
  NoDup (dict_keys d) → NoDup (dict_keys (dict_update d ws)).
Proof.
  unfold dict_update. revert d.
  induction ws as [|[k0 v0] ws IH]; intros d Hd; simpl; [done|].
  by apply IH, dict_set_NoDup.
Qed.

Lemma last_entry_None k ws : last_entry k ws = None ↔ k ∉ ws.*1.
Proof.
  induction ws as [|[k0 v0] ws IH]; simpl.
  - split; [intros _; apply not_elem_of_nil | done].
  - rewrite not_elem_of_cons, <-IH.
    destruct (last_entry k ws); [by split; [|intros [_ ?]]|].
    case_decide; split; [done | intros [? _]; congruence | intros _; split; congruence | done].
Qed.

Lemma last_entry_app k ws v post :
  k ∉ post.*1 → last_entry k (ws ++ (k, v) :: post) = Some v.
Proof.
  intros Hpost%last_entry_None.
  induction ws as [|[k0 v0] ws IH]; simpl.
  - rewrite Hpost. by case_decide.
  - by rewrite IH.
Qed.

Lemma last_entry_Some k ws v :
  last_entry k ws = Some v →
  ∃ pre post, ws = pre ++ (k, v) :: post ∧ k ∉ post.*1.
Proof.
  induction ws as [|[k0 v0] ws IH]; simpl; [done|].
  destruct (last_entry k ws) as [v'|] eqn:E.
  - intros [= ->]. destruct (IH eq_refl) as (pre & post & -> & ?).
    by exists ((k0, v0) :: pre), post.
  - case_decide; [|done]. intros [= ->]. subst.
    exists [], ws. split; [done|]. by apply last_entry_None.
Qed.

Lemma last_entry_NoDup k ws v :
  NoDup ws.*1 → dict_get k ws = Some v → last_entry k ws = Some v.
Proof.
  induction ws as [|[k0 v0] ws IH]; simpl; [done|].
  rewrite NoDup_cons. intros [Hk0 Hnd]. case_decide; subst.
  - intros [= ->]. by apply last_entry_None in Hk0 as ->.
  - intros Hget. by rewrite (IH Hnd Hget).
Qed.
Lemma dict_update_fresh d ws :
  NoDup (dict_keys d ++ ws.*1) → dict_update d ws = d ++ ws.
Proof.
  unfold dict_update, dict_keys. revert d.
  induction ws as [|[k v] ws IH]; intros d Hnd; simpl.
  - by rewrite app_nil_r.
  - simpl in Hnd. rewrite cons_middle, app_assoc in Hnd.
    assert (k ∉ d.*1) as Hk.
    { apply NoDup_app in Hnd as (Hnd & _ & _).
      apply NoDup_app in Hnd as (_ & Hnd & _).
      intros Hin. by apply (Hnd k Hin), list_elem_of_here. }
    rewrite (dict_set_fresh d k v Hk), IH.
    + by rewrite <-app_assoc.
    + by rewrite fmap_app.
Qed.
Lemma dict_get_update_nil ws k :
  dict_get k (dict_update [] ws) = last_entry k ws.
Proof. rewrite dict_get_update. by destruct (last_entry k ws). Qed.
End dict_facts.

Lemma last_entry_fmap {V W} (f : V → W) k (ws : list (string * V)) :
  last_entry k (prod_map id f <$> ws) = f <$> last_entry k ws.
Proof.
  induction ws as [|[k0 v0] ws IH]; [done|].
  rewrite fmap_cons. cbn [last_entry prod_map fst snd]. rewrite IH.
  destruct (last_entry k ws); simpl; [done|]. by case_decide.
Qed.

(** ** Heap operations *)

Lemma deref_run (h : heap) l o : h !! l = Some o → deref l h = Some (o, h).
Proof. unfold deref. by intros ->. Qed.

Lemma copy_run (h : heap) l o :
  h !! l = Some o → copy l h = Some (length h, h ++ [o]).
Proof. unfold copy. by intros ->. Qed.

Lemma deref_new (h : heap) o : deref (length h) (h ++ [o]) = Some (o, h ++ [o]).
Proof. apply deref_run. by apply list_lookup_middle. Qed.

Lemma setattr_new (h : heap) o f :
  setattr (length h) f (h ++ [o]) = Some (tt, h ++ [f o]).
Proof.
  unfold setattr. rewrite list_lookup_middle by done.
  rewrite <-(Nat.add_0_r (length h)) at 1. by rewrite insert_app_r.
Qed.

Lemma bind_run {A B} (m : M A) (k : A → M B) h a h' :
  m h = Some (a, h') → bind m k h = k a h'.
Proof. unfold bind. by intros ->. Qed.

Lemma for_each_app {A S} (xs ys : list A) (body : A → S → M S) s h :
  for_each (xs ++ ys) body s h =
    bind (for_each xs body s) (for_each ys body) h.
Proof.
  revert s h. induction xs as [|x xs IH]; intros s h; simpl; [done|].
  unfold bind in *. destruct (body x s h) as [[s' h']|]; [|done].
  apply IH.
Qed.

Lemma for_each_fmap {A B S} (f : A → B) xs (body : B → S → M S) s h :
  for_each (f <$> xs) body s h = for_each xs (λ x, body (f x)) s h.
Proof.
  revert s h. induction xs as [|x xs IH]; intros s h; simpl; [done|].
  unfold bind. destruct (body (f x) s h) as [[s' h']|]; [|done].
  apply IH.
Qed.

(** ** The loop bodies *)

Lemma add_named_input_run i d (h : heap) o :
  h !! i = Some o →
  add_named_input i d h = Some (dict_set (name o) i d, h).
Proof.
  intros Hi. unfold add_named_input.
  by rewrite (bind_run _ _ _ _ _ (deref_run _ _ _ Hi)).
Qed.

Lemma add_explicit_input_run i d (h : heap) o :
  h !! i = Some o →
  add_explicit_input i d h = Some (dict_set (spec_name o) i d, h).
Proof.
  intros Hi. unfold add_explicit_input.
  by rewrite (bind_run _ _ _ _ _ (deref_run _ _ _ Hi)).
Qed.

Lemma add_sub_input_plain spec i d (h : heap) o :
  h !! i = Some o → primary o = None →
  add_sub_input spec i d h =
    Some (dict_set (apply_prefix spec (name o)) i d, h).
Proof.
  intros Hi Hp. unfold add_sub_input.
  rewrite (bind_run _ _ _ _ _ (deref_run _ _ _ Hi)). by rewrite Hp.
Qed.

Lemma add_sub_input_assoc spec i d (h : heap) o p po :
  h !! i = Some o → primary o = Some p → h !! p = Some po →
  add_sub_input spec i d h =
    Some (dict_set (apply_prefix spec (name o)) (length h) d,
          h ++ [set_prefixed_primary_name (apply_prefix spec (name po)) o]).
Proof.
  intros Hi Hp Hpo. unfold add_sub_input.
  rewrite (bind_run _ _ _ _ _ (deref_run _ _ _ Hi)), Hp.
  rewrite (bind_run _ _ _ _ _ (copy_run _ _ _ Hi)).
  rewrite (bind_run _ _ _ _ _ (deref_new _ _)), Hp.
  rewrite (bind_run _ _ _ _ _
             (deref_run _ _ _ (lookup_app_l_Some _ [o] _ _ Hpo))).
  rewrite (bind_run _ _ _ _ _ (setattr_new _ _ _)).
  by rewrite (bind_run _ _ _ _ _ (deref_new _ _)).
Qed.

Lemma bind_input_run t r k l acc (h : heap) o :
  h !! l = Some o →
  bind_input t r (k, l) acc h =
    Some (dict_set k (length h) acc, h ++ [bound t r o]).
Proof.
  intros Hl. unfold bind_input, bound. simpl.
  rewrite (bind_run _ _ _ _ _ (copy_run _ _ _ Hl)).
  rewrite (bind_run _ _ _ _ _ (deref_new _ _)).
  destruct (task o) as [x|] eqn:Ht, t as [y|].
  - rewrite (bind_run _ _ _ _ _ (eq_refl : ret tt (h ++ [o]) = _)).
    by rewrite (bind_run _ _ _ _ _ (setattr_new _ _ _)).
  - rewrite (bind_run _ _ _ _ _ (eq_refl : ret tt (h ++ [o]) = _)).
    by rewrite (bind_run _ _ _ _ _ (setattr_new _ _ _)).
  - rewrite (bind_run _ _ _ _ _ (setattr_new _ _ _)).
    by rewrite (bind_run _ _ _ _ _ (setattr_new _ _ _)).
  - rewrite (bind_run _ _ _ _ _ (eq_refl : ret tt (h ++ [o]) = _)).
    by rewrite (bind_run _ _ _ _ _ (setattr_new _ _ _)).
Qed.

(** ** The loops *)

Lemma stores_ext (h new : heap) kvs ws :
  stores h kvs ws → stores (h ++ new) kvs ws.
Proof.
  intros Hst. eapply Forall2_impl; [exact Hst|].
  intros kv w [? ?]. split; [done|]. by apply lookup_app_l_Some.
Qed.

Lemma stores_last (h : heap) kvs ws k :
  stores h kvs ws →
  match last_entry k ws with
  | Some o => ∃ l, last_entry k kvs = Some l ∧ h !! l = Some o
  | None => last_entry k kvs = None
  end.
Proof.
  induction 1 as [|[k1 l1] [k2 o2] kvs ws [Hk Hl] _ IH]; simpl in *; [done|].
  subst k1. destruct (last_entry k ws) as [o|].
  - destruct IH as (l & -> & ?). eauto.
  - rewrite IH. case_decide; eauto.
Qed.

Lemma stores_holds (h : heap) kvs ws :
  stores h kvs ws → holds h (dict_update [] kvs) ws.
Proof.
  intros Hst k. pose proof (stores_last h kvs ws k Hst) as Hl.
  rewrite dict_get_update. destruct (last_entry k ws) as [o|].
  - destruct Hl as (l & -> & ?). eauto.
  - by rewrite Hl.
Qed.

(** A loop whose body performs one assignment per element, allocating
    objects at the end of the heap at most; [Q] says where the assigned
    reference points. *)
Lemma for_each_writes {A} (body : A → dict loc → M (dict loc))
    (wr : A → option (string * BidsInput)) (Q : A → loc → Prop) (h0 : heap) :
  (∀ x w d pre, wr x = Some w →
     ∃ v new, body x d (h0 ++ pre) = Some (dict_set w.1 v d, h0 ++ pre ++ new)
              ∧ (h0 ++ pre ++ new) !! v = Some w.2 ∧ Q x v) →
  ∀ es ws d pre, Forall2 (λ e w, wr e = Some w) es ws →
    ∃ kvs new,
      for_each es body d (h0 ++ pre) = Some (dict_update d kvs, h0 ++ pre ++ new)
      ∧ stores (h0 ++ pre ++ new) kvs ws
      ∧ Forall2 (λ e kv, Q e kv.2) es kvs.
Proof.
  intros Hbody es ws d pre Hes. revert d pre.
  induction Hes as [|e w es ws Hw _ IH]; intros d pre.
  - exists [], []. rewrite app_nil_r. split_and!; [done | constructor..].
  - destruct (Hbody e w d pre Hw) as (v & new1 & Hrun & Hv & HQ).
    destruct (IH (dict_set w.1 v d) (pre ++ new1))
      as (kvs & new2 & Hloop & Hst & HQs).
    exists ((w.1, v) :: kvs), (new1 ++ new2). simpl.
    rewrite (bind_run _ _ _ _ _ Hrun).
    rewrite !app_assoc in *. split_and!; [done | | by constructor].
    constructor; [|done]. split; [done|]. simpl.
    by apply lookup_app_l_Some.
Qed.

Lemma flatten_loop specs d (h : heap) :
  for_each specs add_sub_analysis d h =
    for_each (flat_declared specs) (λ e, add_sub_input e.1 e.2) d h.
Proof.
  unfold flat_declared. revert d h.
  induction specs as [|s specs IH]; intros d h; [done|].
  rewrite bind_cons, for_each_app. simpl.
  assert (add_sub_analysis s d h =
          for_each (sub_declared s) (λ e, add_sub_input e.1 e.2) d h) as Hs.
  { unfold add_sub_analysis, sub_declared.
    destruct (default_bids_inputs (analysis_class s)); [|done].
    by rewrite for_each_fmap. }
  unfold bind. rewrite Hs.
  destruct (for_each (sub_declared s) _ d h) as [[d' h']|]; [apply IH | done].
Qed.

Lemma simple_write_run (h0 pre : heap) i w d :
  simple_write h0 i = Some w →
  ∃ v new, add_named_input i d (h0 ++ pre)
             = Some (dict_set w.1 v d, h0 ++ pre ++ new)
           ∧ (h0 ++ pre ++ new) !! v = Some w.2 ∧ v = i.
Proof.
  unfold simple_write. destruct (h0 !! i) as [o|] eqn:Hi; [|done].
  intros [= <-]. exists i, []. rewrite app_nil_r. simpl.
  pose proof (lookup_app_l_Some _ pre _ _ Hi) as Hi'.
  by rewrite (add_named_input_run _ _ _ _ Hi').
Qed.

Lemma sub_write_run (h0 pre : heap) e w d :
  sub_write h0 e = Some w →
  ∃ v new, add_sub_input e.1 e.2 d (h0 ++ pre)
             = Some (dict_set w.1 v d, h0 ++ pre ++ new)
           ∧ (h0 ++ pre ++ new) !! v = Some w.2 ∧ sub_place h0 e v.
Proof.
  unfold sub_write, sub_place.
  destruct (h0 !! e.2) as [o|] eqn:Hi; [|done]. simpl.
  pose proof (lookup_app_l_Some _ pre _ _ Hi) as Hi'.
  destruct (primary o) as [p|] eqn:Hp.
  - destruct (h0 !! p) as [po|] eqn:Hpo; [|done]. intros [= <-]. simpl.
    pose proof (lookup_app_l_Some _ pre _ _ Hpo) as Hpo'.
    eexists (length (h0 ++ pre)), [_].
    rewrite (add_sub_input_assoc _ _ _ _ _ _ _ Hi' Hp Hpo').
    rewrite <-app_assoc. split_and!; [done | |].
    + rewrite app_assoc. by apply list_lookup_middle.
    + rewrite length_app. lia.
  - intros [= <-]. exists e.2, []. rewrite app_nil_r. simpl.
    by rewrite (add_sub_input_plain _ _ _ _ _ Hi' Hp).
Qed.

Lemma lookup_objs (h : heap) (es : list (string * loc)) :
  Forall (λ kv, is_Some (h !! kv.2)) es →
  ∃ objs, Forall2 (λ kv o, h !! kv.2 = Some o) es objs.
Proof.
  induction 1 as [|kv es [o Ho] _ [objs IH]].
  - exists []. constructor.
  - exists (o :: objs). by constructor.
Qed.

(** The composite branch of lines 36-52: one assignment per declared input,
    in order. *)
Lemma collect_composite_spec c specs (h : heap) ws :
  writes (mkAnalysis c (Some specs)) h = Some ws →
  ∃ kvs new,
    collect_defaults (mkAnalysis c (Some specs)) h
      = Some (dict_update [] kvs, h ++ new)
    ∧ stores (h ++ new) kvs ws
    ∧ Forall2 (λ e kv, sub_place h e kv.2) (flat_declared specs) kvs.
Proof.
  unfold writes, collect_defaults. simpl. intros Hws%mapM_Some.
  destruct (for_each_writes (λ e, add_sub_input e.1 e.2) (sub_write h)
              (sub_place h) h
              (λ x w d pre, sub_write_run h pre x w d) _ _ [] [] Hws)
    as (kvs & new & Hrun & Hst & HQ).
  rewrite app_nil_r in *. exists kvs, new. by rewrite flatten_loop, Hrun.
Qed.

(** Lines 36-52 perform the assignments [writes] and leave every object
    that was there untouched. *)
Lemma collect_defaults_spec cls (h : heap) ws :
  writes cls h = Some ws →
  ∃ dflt new,
    collect_defaults cls h = Some (dflt, h ++ new)
    ∧ NoDup (dict_keys dflt)
    ∧ holds (h ++ new) dflt ws.
Proof.
  destruct cls as [c [specs|]].
  - intros (kvs & new & Hrun & Hst & _)%collect_composite_spec.
    exists (dict_update [] kvs), new.
    split_and!; [done | |by apply stores_holds].
    apply dict_update_NoDup, NoDup_nil_2.
  - unfold writes, collect_defaults. simpl.
    destruct (default_bids_inputs c) as [inpts|].
    + intros Hws%mapM_Some.
      destruct (for_each_writes add_named_input (simple_write h)
                  (λ i v, v = i) h
                  (λ x w d pre, simple_write_run h pre x w d) _ _ [] [] Hws)
        as (kvs & new & Hrun & Hst & _).
      rewrite app_nil_r in *. exists (dict_update [] kvs), new.
      rewrite Hrun. split_and!; [done | |by apply stores_holds].
      apply dict_update_NoDup, NoDup_nil_2.
    + intros [= <-]. exists [], []. rewrite app_nil_r.
      split_and!; [done | apply NoDup_nil_2 | done].
Qed.

(** Every entry of the defaults refers to an object. *)
Lemma holds_objs (h : heap) dflt ws :
  NoDup (dict_keys dflt) → holds h dflt ws →
  ∃ objs, Forall2 (λ kv o, h !! kv.2 = Some o) dflt objs.
Proof.
  intros Hnd Hh. apply lookup_objs.
  apply Forall_lookup_2. intros i [k v] Hi. simpl.
  pose proof (dict_get_lookup dflt i k v Hnd Hi) as Hget.
  specialize (Hh k). destruct (last_entry k ws) as [o|].
  - destruct Hh as (l & Hl & Ho). exists o. congruence.
  - congruence.
Qed.

Lemma bind_loop t r es :
  ∀ objs acc (h : heap),
    Forall2 (λ kv o, h !! kv.2 = Some o) es objs →
    for_each es (bind_input t r) acc h =
      Some (dict_update acc (zip es.*1 (seq (length h) (length es))),
            h ++ (bound t r <$> objs)).
Proof.
  induction es as [|[k l] es IH]; intros objs acc h Hes.
  - apply Forall2_nil_inv_l in Hes as ->. simpl. by rewrite app_nil_r.
  - apply Forall2_cons_inv_l in Hes as (o & objs' & Hl & Hes & ->).
    simpl in Hl. cbn [for_each].
    rewrite (bind_run _ _ _ _ _ (bind_input_run t r k l acc h o Hl)).
    rewrite (IH objs').
    + rewrite length_app, Nat.add_1_r, <-app_assoc. done.
    + eapply Forall2_impl; [exact Hes|].
      intros kv o' ?. by apply lookup_app_l_Some.
Qed.

(** Lines 53-60 give every entry of the defaults a copy of its own, placed
    after all objects that were there. *)
Lemma bind_inputs_spec t r dflt (h : heap) objs :
  NoDup (dict_keys dflt) →
  Forall2 (λ kv o, h !! kv.2 = Some o) dflt objs →
  ∃ d, bind_inputs t r dflt h = Some (d, h ++ (bound t r <$> objs))
       ∧ dict_keys d = dict_keys dflt
       ∧ dict_values d = seq (length h) (length dflt)
       ∧ ∀ k v o, dict_get k dflt = Some v → h !! v = Some o →
           ∃ l, dict_get k d = Some l ∧ length h ≤ l
                ∧ (h ++ (bound t r <$> objs)) !! l = Some (bound t r o).
Proof.
  intros Hnd Hobjs.
  assert (length dflt.*1 = length (seq (length h) (length dflt))) as Hlen.
  { by rewrite length_fmap, length_seq. }
  exists (zip dflt.*1 (seq (length h) (length dflt))).
  assert (dict_keys (zip dflt.*1 (seq (length h) (length dflt)))
          = dict_keys dflt) as Hkeys.
  { unfold dict_keys. apply fst_zip. lia. }
  split_and!; [| done | unfold dict_values; apply snd_zip; lia |].
  - unfold bind_inputs. rewrite (bind_loop t r dflt objs [] h Hobjs).
    rewrite dict_update_fresh; [done|]. simpl.
    change ((zip dflt.*1 (seq (length h) (length dflt))).*1)
      with (dict_keys (zip dflt.*1 (seq (length h) (length dflt)))).
    by rewrite Hkeys.
  - intros k v o [i Hi]%dict_get_Some_lookup Hv.
    destruct (Forall2_lookup_l _ _ _ _ _ Hobjs Hi) as (o' & Ho' & Hv').
    simpl in Hv'. assert (o' = o) as -> by congruence.
    exists (length h + i). split_and!; [| lia |].
    + eapply (dict_get_lookup _ i); [by rewrite Hkeys|].
      apply lookup_zip_with_Some. exists k, (length h + i).
      split_and!; [done | by rewrite list_lookup_fmap, Hi |].
      apply lookup_seq. split; [done|]. by eapply lookup_lt_Some.
    + rewrite lookup_app_r by lia.
      replace (length h + i - length h) with i by lia.
      by rewrite list_lookup_fmap, Ho'.
Qed.

(** The resolver as a whole: under each key of the assignments, a new
    object, the bound state of the last assignment to the key. *)
Lemma get_bids_inputs_spec cls t r (h : heap) ws :
  writes cls h = Some ws →
  ∃ d new,
    get_bids_inputs cls t r h = Some (d, h ++ new)
    ∧ NoDup (dict_keys d)
    ∧ NoDup (dict_values d)
    ∧ Forall (λ v, length h ≤ v < length (h ++ new)) (dict_values d)
    ∧ holds (h ++ new) d (prod_map id (bound t r) <$> ws).
Proof.
  intros Hws.
  destruct (collect_defaults_spec cls h ws Hws) as (dflt & new1 & Hc & Hnd & Hh).
  destruct (holds_objs _ _ _ Hnd Hh) as [objs Hobjs].
  destruct (bind_inputs_spec t r dflt (h ++ new1) objs Hnd Hobjs)
    as (d & Hb & Hkeys & Hvals & Hent).
  exists d, (new1 ++ (bound t r <$> objs)). rewrite app_assoc.
  split_and!.
  - unfold get_bids_inputs. by rewrite (bind_run _ _ _ _ _ Hc).
  - by rewrite Hkeys.
  - rewrite Hvals. apply NoDup_seq.
  - rewrite Hvals. apply Forall_forall. intros v Hv%elem_of_seq.
    rewrite !length_app, length_fmap in *.
    rewrite <-(Forall2_length _ _ _ Hobjs). lia.
  - intros k. rewrite last_entry_fmap. specialize (Hh k).
    destruct (last_entry k ws) as [o|]; simpl.
    + destruct Hh as (v & Hv & Ho).
      destruct (Hent k v o Hv Ho) as (l & Hl & _ & Hlo). eauto.
    + apply dict_get_None. rewrite Hkeys. by apply dict_get_None.
Qed.

(** ** Well-formed references *)

Lemma ref_ok_simple_write (h : heap) i : ref_ok h i → is_Some (simple_write h i).
Proof.
  unfold ref_ok, simple_write. destruct (h !! i) as [o|]; [|done].
  intros _. by eexists.
Qed.

Lemma ref_ok_sub_write (h : heap) e : ref_ok h e.2 → is_Some (sub_write h e).
Proof.
  unfold ref_ok, sub_write. destruct (h !! e.2) as [o|]; [|done]. simpl.
  destruct (primary o) as [p|]; [|by eexists].
  intros [po Hpo]%lookup_lt_is_Some_2. rewrite Hpo. by eexists.
Qed.

Lemma class_ok_writes (h : heap) cls :
  class_ok h cls → ∃ ws, writes cls h = Some ws.
Proof.
  unfold class_ok, class_refs, writes. intros Hok.
  destruct (subcomp_specs cls) as [specs|].
  - apply (mapM_is_Some_2 (sub_write h)).
    apply (proj1 (Forall_fmap snd (ref_ok h) _)) in Hok.
    eapply Forall_impl; [exact Hok|].
    intros e. apply ref_ok_sub_write.
  - destruct (default_bids_inputs (class_attrs cls)) as [inpts|]; [|by eexists].
    apply (mapM_is_Some_2 (simple_write h)).
    eapply Forall_impl; [exact Hok|]. intros i. apply ref_ok_simple_write.
Qed.

Lemma simple_write_ext (h new : heap) i w :
  simple_write h i = Some w → simple_write (h ++ new) i = Some w.
Proof.
  unfold simple_write. destruct (h !! i) as [o|] eqn:Hi; [|done].
  by rewrite (lookup_app_l_Some _ new _ _ Hi).
Qed.

Lemma sub_write_ext (h new : heap) e w :
  sub_write h e = Some w → sub_write (h ++ new) e = Some w.
Proof.
  unfold sub_write. destruct (h !! e.2) as [o|] eqn:Hi; [|done].
  rewrite (lookup_app_l_Some _ new _ _ Hi). simpl.
  destruct (primary o) as [p|]; [|done].
  destruct (h !! p) as [po|] eqn:Hp; [|done].
  by rewrite (lookup_app_l_Some _ new _ _ Hp).
Qed.

(** The assignments depend on the declared inputs alone: objects allocated
    since do not change them. *)
Lemma writes_ext cls (h new : heap) ws :
  writes cls h = Some ws → writes cls (h ++ new) = Some ws.
Proof.
  unfold writes. destruct (subcomp_specs cls) as [specs|].
  - rewrite !mapM_Some. intros Hws. eapply Forall2_impl; [exact Hws|].
    intros e w. apply sub_write_ext.
  - destruct (default_bids_inputs (class_attrs cls)) as [inpts|]; [|done].
    rewrite !mapM_Some. intros Hws. eapply Forall2_impl; [exact Hws|].
    intros e w. apply simple_write_ext.
Qed.

Lemma class_ok_lt (h : heap) cls l :
  class_ok h cls → l ∈ class_refs cls → l < length h.
Proof.
  unfold class_ok. intros Hok Hl.
  apply (proj1 (Forall_forall _ _) Hok) in Hl. unfold ref_ok in Hl.
  destruct (h !! l) as [o|] eqn:Ho; [|done]. by eapply lookup_lt_Some.
Qed.

(** ** Normalisation of the explicit inputs *)

Lemma explicit_loop l :
  ∀ kvs d (h : heap),
    Forall2 (λ i kv, ∃ o, h !! i = Some o ∧ kv = (spec_name o, i)) l kvs →
    for_each l add_explicit_input d h = Some (dict_update d kvs, h).
Proof.
  induction l as [|i l IH]; intros kvs d h Hl.
  - by apply Forall2_nil_inv_l in Hl as ->.
  - apply Forall2_cons_inv_l in Hl as (kv & kvs' & (o & Hi & ->) & Hl & ->).
    cbn [for_each].
    rewrite (bind_run _ _ _ _ _ (add_explicit_input_run i d h o Hi)).
    by rewrite (IH kvs').
Qed.

Lemma explicit_entries (h : heap) l :
  Forall (λ i, i < length h) l →
  ∃ kvs, Forall2 (λ i kv, ∃ o, h !! i = Some o ∧ kv = (spec_name o, i)) l kvs.
Proof.
  induction 1 as [|i l [o Ho]%lookup_lt_is_Some_2 _ [kvs IH]].
  - exists []. constructor.
  - exists ((spec_name o, i) :: kvs). constructor; eauto.
Qed.

Lemma normalise_inputs_ok (h : heap) inputs :
  inputs_ok h inputs →
  ∃ e, normalise_inputs inputs h = Some (e, h) ∧ NoDup (dict_keys e).
Proof.
  destruct inputs as [|d|l]; simpl.
  - intros _. exists []. split; [done | apply NoDup_nil_2].
  - intros Hd. by exists d.
  - intros [kvs Hkvs]%explicit_entries. exists (dict_update [] kvs).
    rewrite (explicit_loop l kvs [] h Hkvs). split; [done|].
    apply dict_update_NoDup, NoDup_nil_2.
Qed.

Lemma holds_inv {f : BidsInput → BidsInput} (h : heap) d ws k l :
  holds h d (prod_map id f <$> ws) → dict_get k d = Some l →
  ∃ o, last_entry k ws = Some o ∧ h !! l = Some (f o).
Proof.
  intros Hh Hget. specialize (Hh k). rewrite last_entry_fmap in Hh.
  destruct (last_entry k ws) as [o|]; simpl in Hh.
  - destruct Hh as (l' & Hl' & Ho). exists o. split; [done|]. congruence.
  - congruence.
Qed.

(** ** The constructor *)

(** C8: a list of explicit inputs becomes a mapping that holds each item
    under the [spec_name] of the item itself (the last of several items with
    one spec name), with no other entry; omitted inputs become the empty
    mapping.  No object is touched. *)
Theorem normalise_inputs_list (h : heap) (l : list loc) :
  Forall (λ i, i < length h) l →
  normalise_inputs InputsNone h = Some ([], h)
  ∧ ∃ d, normalise_inputs (InputsList l) h = Some (d, h)
      ∧ (∀ k i, dict_get k d = Some i →
           i ∈ l ∧ ∃ o, h !! i = Some o ∧ spec_name o = k)
      ∧ (∀ i o, i ∈ l → h !! i = Some o → is_Some (dict_get (spec_name o) d))
      ∧ (∀ pre i post o, l = pre ++ i :: post → h !! i = Some o →
           Forall (λ j, ∀ o', h !! j = Some o' → spec_name o' ≠ spec_name o) post →
           dict_get (spec_name o) d = Some i).
Proof.
  intros Hl. split; [done|].
  destruct (explicit_entries h l Hl) as [kvs Hkvs].
  exists (dict_update [] kvs). simpl.
  rewrite (explicit_loop l kvs [] h Hkvs). split_and!; [done | | |].
  - intros k i. rewrite dict_get_update_nil.
    intros (pre & post & -> & _)%last_entry_Some.
    assert ((pre ++ (k, i) :: post) !! length pre = Some (k, i)) as Hj
      by by apply list_lookup_middle.
    destruct (Forall2_lookup_r _ _ _ _ _ Hkvs Hj) as (i' & Hi' & o & Ho & [= -> ->]).
    split; [by eapply list_elem_of_lookup_2 | eauto].
  - intros i o [j Hj]%list_elem_of_lookup Ho.
    destruct (Forall2_lookup_l _ _ _ _ _ Hkvs Hj) as (kv & Hkv & o' & Ho' & ->).
    assert (o' = o) as -> by congruence.
    rewrite dict_get_update_nil. apply not_eq_None_Some.
    rewrite last_entry_None. intros Hno. apply Hno.
    apply list_elem_of_fmap. exists (spec_name o, i).
    split; [done | by eapply list_elem_of_lookup_2].
  - intros pre i post o -> Ho Hpost.
    apply Forall2_app_inv_l in Hkvs as (k1 & k2 & _ & Hk2 & ->).
    apply Forall2_cons_inv_l in Hk2 as (kv & k3 & (o' & Ho' & ->) & Hk3 & ->).
    assert (o' = o) as -> by congruence.
    rewrite dict_get_update_nil. apply last_entry_app.
    intros ([k j] & Hk & Hin)%list_elem_of_fmap. simpl in Hk. subst k.
    apply list_elem_of_lookup in Hin as [n Hn].
    destruct (Forall2_lookup_r _ _ _ _ _ Hk3 Hn) as (j' & Hj' & o' & Ho'' & Heq).
    injection Heq as Hname ->.
    apply list_elem_of_lookup_2 in Hj'.
    by apply (proj1 (Forall_forall _ _) Hpost j' Hj' o' Ho'').
Qed.

Lemma normalise_inputs_list_witness :
  Forall (λ i, i < length ex_heap) [2; 3; 0]
  ∧ normalise_inputs InputsNone ex_heap = Some ([], ex_heap)
  ∧ ∃ d, normalise_inputs (InputsList [2; 3; 0]) ex_heap = Some (d, ex_heap)
      ∧ (∀ k i, dict_get k d = Some i →
           i ∈ [2; 3; 0] ∧ ∃ o, ex_heap !! i = Some o ∧ spec_name o = k)
      ∧ (∀ i o, i ∈ [2; 3; 0] → ex_heap !! i = Some o →
           is_Some (dict_get (spec_name o) d))
      ∧ (∀ pre i post o, [2; 3; 0] = pre ++ i :: post → ex_heap !! i = Some o →
           Forall (λ j, ∀ o', ex_heap !! j = Some o' → spec_name o' ≠ spec_name o)
                  post →
           dict_get (spec_name o) d = Some i).
Proof.
  assert (Forall (λ i, i < length ex_heap) [2; 3; 0]) as H by sample_ok.
  split; [exact H|]. exact (normalise_inputs_list ex_heap [2; 3; 0] H).
Defined.

Lemma init_bids_run cls n ds p inputs bt (h : heap) e dflt h' :
  type ds = "bids" →
  normalise_inputs inputs h = Some (e, h) →
  get_bids_inputs cls bt None h = Some (dflt, h') →
  __init__ cls n ds p inputs bt h
    = Some (mkConstructed bt n ds p (dict_update dflt e), h').
Proof.
  intros Hty Hn Hg. unfold __init__.
  rewrite (bind_run _ _ _ _ _ Hn). rewrite decide_True by done.
  unfold bind at 1 2. by rewrite Hg.
Qed.

(** C1: on a BIDS dataset the base constructor receives, under every name
    the explicit inputs have, the explicit entry itself, and under every
    other name what the defaults have under it; the objects that existed
    before the call are as they were. *)
Theorem init_bids_merge cls n ds p inputs bt (h : heap) :
  type ds = "bids" → class_ok h cls → inputs_ok h inputs →
  ∃ e dflt new r,
    normalise_inputs inputs h = Some (e, h)
    ∧ get_bids_inputs cls bt None h = Some (dflt, h ++ new)
    ∧ __init__ cls n ds p inputs bt h = Some (r, h ++ new)
    ∧ ∀ k, match dict_get k e with
           | Some v => dict_get k (super_inputs r) = Some v
           | None => dict_get k (super_inputs r) = dict_get k dflt
           end.
Proof.
  intros Hty [ws Hws]%class_ok_writes Hin.
  destruct (normalise_inputs_ok h inputs Hin) as (e & He & Hnd).
  destruct (get_bids_inputs_spec cls bt None h ws Hws) as (dflt & new & Hg & _).
  exists e, dflt, new. eexists. split_and!; [done | done | |].
  - by apply init_bids_run.
  - intros k. simpl. rewrite dict_get_update.
    destruct (dict_get k e) as [v|] eqn:Hk.
    + by rewrite (last_entry_NoDup k e v Hnd Hk).
    + apply dict_get_None, last_entry_None in Hk. by rewrite Hk.
Qed.

Lemma init_bids_merge_witness :
  type ex_bids = "bids" ∧ class_ok ex_heap ex_simple
  ∧ inputs_ok ex_heap (InputsList [3; 2])
  ∧ ∃ e dflt new r,
      normalise_inputs (InputsList [3; 2]) ex_heap = Some (e, ex_heap)
      ∧ get_bids_inputs ex_simple (Some "rest") None ex_heap
          = Some (dflt, ex_heap ++ new)
      ∧ __init__ ex_simple "study" ex_bids 0 (InputsList [3; 2]) (Some "rest") ex_heap
          = Some (r, ex_heap ++ new)
      ∧ ∀ k, match dict_get k e with
             | Some v => dict_get k (super_inputs r) = Some v
             | None => dict_get k (super_inputs r) = dict_get k dflt
             end.
Proof.
  assert (class_ok ex_heap ex_simple) as Hc by sample_ok.
  assert (inputs_ok ex_heap (InputsList [3; 2])) as Hi by sample_ok.
  split_and!; [reflexivity | exact Hc | exact Hi |].
  exact (init_bids_merge ex_simple "study" ex_bids 0 (InputsList [3; 2])
           (Some "rest") ex_heap eq_refl Hc Hi).
Defined.

(** C2: on a dataset that is not of BIDS type the base constructor receives
    the explicit inputs (a list turned into a mapping, a mapping as it is),
    whatever the class declares, and no object is created or changed. *)
Theorem init_non_bids cls n ds p inputs bt (h : heap) :
  type ds ≠ "bids" → inputs_ok h inputs →
  ∃ e, normalise_inputs inputs h = Some (e, h)
       ∧ __init__ cls n ds p inputs bt h = Some (mkConstructed bt n ds p e, h)
       ∧ match inputs with
         | InputsNone => e = []
         | InputsDict d => e = d
         | InputsList _ => True
         end.
Proof.
  intros Hty Hin.
  destruct (normalise_inputs_ok h inputs Hin) as (e & He & _).
  exists e. split_and!; [done | |].
  - unfold __init__. rewrite (bind_run _ _ _ _ _ He).
    by rewrite decide_False by done.
  - destruct inputs; simpl in He; [by injection He | by injection He | done].
Qed.

Lemma init_non_bids_witness :
  type ex_basic ≠ "bids" ∧ inputs_ok ex_heap (InputsDict [("mag", 3)])
  ∧ ∃ e, normalise_inputs (InputsDict [("mag", 3)]) ex_heap = Some (e, ex_heap)
       ∧ __init__ ex_composite "study" ex_basic 0 (InputsDict [("mag", 3)])
              (Some "rest") ex_heap
           = Some (mkConstructed (Some "rest") "study" ex_basic 0 e, ex_heap)
       ∧ e = [("mag", 3)].
Proof.
  assert (type ex_basic ≠ "bids") as Ht by (vm_compute; discriminate).
  assert (inputs_ok ex_heap (InputsDict [("mag", 3)])) as Hi.
  { apply NoDup_singleton. }
  split_and!; [exact Ht | exact Hi |].
  exact (init_non_bids ex_composite "study" ex_basic 0 (InputsDict [("mag", 3)])
           (Some "rest") ex_heap Ht Hi).
Defined.

(** C10: on a BIDS dataset the constructor calls the resolver with the task
    and no repository, and every default input that enters the merge has
    [_repository] equal to [None]. *)
Theorem init_defaults_unbound cls n ds p inputs bt (h : heap) :
  type ds = "bids" → class_ok h cls → inputs_ok h inputs →
  ∃ e dflt h',
    normalise_inputs inputs h = Some (e, h)
    ∧ get_bids_inputs cls bt None h = Some (dflt, h')
    ∧ __init__ cls n ds p inputs bt h
        = Some (mkConstructed bt n ds p (dict_update dflt e), h')
    ∧ ∀ k l, dict_get k dflt = Some l →
        ∃ o, h' !! l = Some o ∧ _repository o = None.
Proof.
  intros Hty [ws Hws]%class_ok_writes Hin.
  destruct (normalise_inputs_ok h inputs Hin) as (e & He & Hnd).
  destruct (get_bids_inputs_spec cls bt None h ws Hws)
    as (dflt & new & Hg & _ & _ & _ & Hh).
  exists e, dflt, (h ++ new). split_and!; [done | done | |].
  - by apply init_bids_run.
  - intros k l Hl. destruct (holds_inv _ _ _ _ _ Hh Hl) as (o & _ & Ho).
    by exists (bound bt None o).
Qed.

Lemma init_defaults_unbound_witness :
  type ex_bids = "bids" ∧ class_ok ex_heap ex_composite
  ∧ inputs_ok ex_heap InputsNone
  ∧ ∃ e dflt h',
      normalise_inputs InputsNone ex_heap = Some (e, ex_heap)
      ∧ get_bids_inputs ex_composite None None ex_heap = Some (dflt, h')
      ∧ __init__ ex_composite "study" ex_bids 0 InputsNone None ex_heap
          = Some (mkConstructed None "study" ex_bids 0 (dict_update dflt e), h')
      ∧ ∀ k l, dict_get k dflt = Some l →
          ∃ o, h' !! l = Some o ∧ _repository o = None.
Proof.
  assert (class_ok ex_heap ex_composite) as Hc by sample_ok.
  split_and!; [reflexivity | exact Hc | exact I |].
  exact (init_defaults_unbound ex_composite "study" ex_bids 0 InputsNone None
           ex_heap eq_refl Hc I).
Defined.

(** ** The resolver *)

Lemma call_many_spec cls ws args :
  ∀ h : heap, writes cls h = Some ws →
    ∃ ds new,
      call_many cls args h = Some (ds, h ++ new)
      ∧ length ds = length args
      ∧ Forall (λ l, length h ≤ l < length (h ++ new)) (ds ≫= dict_values)
      ∧ NoDup (ds ≫= dict_values).
Proof.
  induction args as [|[t r] args IH]; intros h Hws.
  - exists [], []. rewrite app_nil_r.
    split_and!; [done | done | constructor | apply NoDup_nil_2].
  - destruct (get_bids_inputs_spec cls t r h ws Hws)
      as (d & new1 & Hg & _ & Hnd & Hrange & _).
    destruct (IH (h ++ new1) (writes_ext _ _ _ _ Hws))
      as (ds & new2 & Hrest & Hlen & Hranges & Hnds).
    exists (d :: ds), (new1 ++ new2). cbn [call_many].
    rewrite (bind_run _ _ _ _ _ Hg), (bind_run _ _ _ _ _ Hrest).
    rewrite bind_cons, app_assoc. split_and!; [done | by simpl; f_equal | |].
    + apply Forall_app. split.
      * eapply Forall_impl; [exact Hrange|]. intros l.
        rewrite !length_app. lia.
      * eapply Forall_impl; [exact Hranges|]. intros l.
        rewrite !length_app. lia.
    + apply NoDup_app. split_and!; [done | | done].
      intros l Hl1 Hl2.
      apply (proj1 (Forall_forall _ _) Hrange) in Hl1.
      apply (proj1 (Forall_forall _ _) Hranges) in Hl2. lia.
Qed.

(** C3: however often the resolver is called on a class, with whatever
    tasks and repositories, every object that existed before the calls,
    the declared default inputs among them, is the same after them, and
    every entry of every returned mapping refers to an object of its own
    that did not exist before. *)
Theorem resolver_leaves_defaults (cls : AnalysisClass)
    (args : list (option string * option repo_ref)) (h : heap) :
  class_ok h cls →
  ∃ ds h',
    call_many cls args h = Some (ds, h')
    ∧ length ds = length args
    ∧ (∀ l o, h !! l = Some o → h' !! l = Some o)
    ∧ Forall (λ l, h' !! l = h !! l) (class_refs cls)
    ∧ Forall (λ l, length h ≤ l < length h') (ds ≫= dict_values)
    ∧ NoDup (ds ≫= dict_values).
Proof.
  intros Hok. destruct (class_ok_writes h cls Hok) as [ws Hws].
  destruct (call_many_spec cls ws args h Hws)
    as (ds & new & Hrun & Hlen & Hrange & Hnd).
  exists ds, (h ++ new). split_and!; [done | done | | | done | done].
  - intros l o. apply lookup_app_l_Some.
  - apply Forall_forall. intros l Hl.
    rewrite lookup_app_l; [done|]. by eapply class_ok_lt.
Qed.

Lemma resolver_leaves_defaults_witness :
  class_ok ex_heap ex_composite
  ∧ ∃ ds h',
      call_many ex_composite [(Some "rest", None); (Some "task", Some 7)] ex_heap
        = Some (ds, h')
      ∧ length ds = 2
      ∧ (∀ l o, ex_heap !! l = Some o → h' !! l = Some o)
      ∧ Forall (λ l, h' !! l = ex_heap !! l) (class_refs ex_composite)
      ∧ Forall (λ l, length ex_heap ≤ l < length h') (ds ≫= dict_values)
      ∧ NoDup (ds ≫= dict_values).
Proof.
  assert (class_ok ex_heap ex_composite) as Hc by sample_ok.
  split; [exact Hc|].
  exact (resolver_leaves_defaults ex_composite
           [(Some "rest", None); (Some "task", Some 7)] ex_heap Hc).
Defined.

(** C4: every input of the local defaults mapping gets a copy in the result
    under the same key; the copy keeps a task filter that was set, whatever
    the task argument, and takes the task argument when none was set. *)
Theorem task_binding cls t r (h : heap) :
  class_ok h cls →
  ∃ dflt h1 d h',
    collect_defaults cls h = Some (dflt, h1)
    ∧ get_bids_inputs cls t r h = Some (d, h')
    ∧ ∀ k l o, dict_get k dflt = Some l → h1 !! l = Some o →
        ∃ l' o', dict_get k d = Some l' ∧ h' !! l' = Some o' ∧ l' ≠ l
          ∧ match task o with
            | Some x => task o' = Some x
            | None => task o' = t
            end.
Proof.
  intros [ws Hws]%class_ok_writes.
  destruct (collect_defaults_spec cls h ws Hws) as (dflt & new1 & Hc & Hnd & Hh).
  destruct (holds_objs _ _ _ Hnd Hh) as [objs Hobjs].
  destruct (bind_inputs_spec t r dflt (h ++ new1) objs Hnd Hobjs)
    as (d & Hb & _ & _ & Hent).
  exists dflt, (h ++ new1), d, ((h ++ new1) ++ (bound t r <$> objs)).
  split_and!; [done | |].
  - unfold get_bids_inputs. by rewrite (bind_run _ _ _ _ _ Hc).
  - intros k l o Hk Hl. destruct (Hent k l o Hk Hl) as (l' & Hl' & Hge & Ho').
    exists l', (bound t r o). repeat split; [done | done | |].
    + apply lookup_lt_Some in Hl. lia.
    + unfold bound. by destruct (task o) eqn:Ht, t.
Qed.

Lemma task_binding_witness :
  class_ok ex_heap ex_simple
  ∧ ∃ dflt h1 d h',
      collect_defaults ex_simple ex_heap = Some (dflt, h1)
      ∧ get_bids_inputs ex_simple (Some "rest") None ex_heap = Some (d, h')
      ∧ ∀ k l o, dict_get k dflt = Some l → h1 !! l = Some o →
          ∃ l' o', dict_get k d = Some l' ∧ h' !! l' = Some o' ∧ l' ≠ l
            ∧ match task o with
              | Some x => task o' = Some x
              | None => task o' = Some "rest"
              end.
Proof.
  assert (class_ok ex_heap ex_simple) as Hc by sample_ok.
  split; [exact Hc|].
  exact (task_binding ex_simple (Some "rest") None ex_heap Hc).
Defined.

(** C9: the resolver does not fail on duplicate keys.  Of the assignments
    made while the defaults are collected, the last one to a key decides
    the entry of the result under that key, whatever was assigned to the key
    earlier; the result has one entry per key. *)
Theorem last_write_wins cls t r (h : heap) :
  class_ok h cls →
  ∃ ws d h',
    writes cls h = Some ws
    ∧ get_bids_inputs cls t r h = Some (d, h')
    ∧ NoDup (dict_keys d)
    ∧ (∀ k, k ∈ dict_keys d ↔ k ∈ ws.*1)
    ∧ ∀ pre k o post, ws = pre ++ (k, o) :: post → k ∉ post.*1 →
        ∃ l, dict_get k d = Some l ∧ h' !! l = Some (bound t r o).
Proof.
  intros [ws Hws]%class_ok_writes.
  destruct (get_bids_inputs_spec cls t r h ws Hws)
    as (d & new & Hg & Hnd & _ & _ & Hh).
  exists ws, d, (h ++ new). split_and!; [done | done | done | |].
  - intros k. specialize (Hh k). rewrite last_entry_fmap in Hh.
    rewrite <-dict_get_is_Some.
    destruct (last_entry k ws) as [o|] eqn:Hk; simpl in Hh.
    + destruct Hh as (l & -> & _). split; [intros _ | by eexists].
      apply last_entry_Some in Hk as (pre & post & -> & _).
      rewrite fmap_app, fmap_cons. apply elem_of_app. right.
      apply list_elem_of_here.
    + rewrite Hh. apply last_entry_None in Hk. split; [by intros [? ?] | done].
  - intros pre k o post -> Hpost. specialize (Hh k).
    rewrite last_entry_fmap, (last_entry_app k pre o post Hpost) in Hh.
    exact Hh.
Qed.

Lemma last_write_wins_witness :
  class_ok ex_heap ex_duplicates
  ∧ ∃ ws d h',
      writes ex_duplicates ex_heap = Some ws
      ∧ get_bids_inputs ex_duplicates None (Some 7) ex_heap = Some (d, h')
      ∧ NoDup (dict_keys d)
      ∧ (∀ k, k ∈ dict_keys d ↔ k ∈ ws.*1)
      ∧ ∀ pre k o post, ws = pre ++ (k, o) :: post → k ∉ post.*1 →
          ∃ l, dict_get k d = Some l ∧ h' !! l = Some (bound None (Some 7) o).
Proof.
  assert (class_ok ex_heap ex_duplicates) as Hc by sample_ok.
  split; [exact Hc|].
  exact (last_write_wins ex_duplicates None (Some 7) ex_heap Hc).
Defined.

Lemma bare_sub_analysis s d (h : heap) :
  default_bids_inputs (analysis_class s) = None →
  add_sub_analysis s d h = Some (d, h).
Proof. unfold add_sub_analysis. by intros ->. Qed.

Lemma bare_loop specs d (h : heap) :
  Forall (λ s, default_bids_inputs (analysis_class s) = None) specs →
  for_each specs add_sub_analysis d h = Some (d, h).
Proof.
  induction 1 as [|s specs Hs _ IH]; [done|]. cbn [for_each].
  by rewrite (bind_run _ _ _ _ _ (bare_sub_analysis s d h Hs)).
Qed.

Lemma skip_bare_loop pre s post d (h : heap) :
  default_bids_inputs (analysis_class s) = None →
  for_each (pre ++ s :: post) add_sub_analysis d h
    = for_each (pre ++ post) add_sub_analysis d h.
Proof.
  intros Hs. rewrite !for_each_app. unfold bind.
  destruct (for_each pre add_sub_analysis d h) as [[d' h']|]; [|done].
  cbn [for_each]. unfold bind.
  by rewrite (bare_sub_analysis s d' h' Hs).
Qed.

(** C7: a class without a [default_bids_inputs] attribute gives the empty
    mapping and no error; in a composite class a sub-analysis whose class
    has no such attribute adds nothing to the defaults, the result being
    that of the class without this sub-analysis, and the empty mapping when
    no other sub-analysis declares defaults. *)
Theorem missing_defaults_tolerated (c : PyClass) (pre post : list SubCompSpec)
    (s : SubCompSpec) (d : dict loc) t r (h : heap) :
  default_bids_inputs (analysis_class s) = None →
  get_bids_inputs (mkAnalysis (mkClass None) None) t r h = Some ([], h)
  ∧ add_sub_analysis s d h = Some (d, h)
  ∧ get_bids_inputs (mkAnalysis c (Some (pre ++ s :: post))) t r h
      = get_bids_inputs (mkAnalysis c (Some (pre ++ post))) t r h
  ∧ (Forall (λ s', default_bids_inputs (analysis_class s') = None) (pre ++ post) →
     get_bids_inputs (mkAnalysis c (Some (pre ++ s :: post))) t r h
       = Some ([], h)).
Proof.
  intros Hs.
  assert (get_bids_inputs (mkAnalysis c (Some (pre ++ s :: post))) t r h
          = get_bids_inputs (mkAnalysis c (Some (pre ++ post))) t r h) as Heq.
  { unfold get_bids_inputs, bind, collect_defaults. simpl.
    by rewrite (skip_bare_loop pre s post [] h Hs). }
  split_and!; [done | by apply bare_sub_analysis | done |].
  intros Hall. rewrite Heq.
  unfold get_bids_inputs, bind, collect_defaults. simpl.
  by rewrite (bare_loop _ [] h Hall).
Qed.

Lemma missing_defaults_tolerated_witness :
  default_bids_inputs (analysis_class ex_sub_bare) = None
  ∧ get_bids_inputs (mkAnalysis (mkClass None) None) (Some "rest") (Some 7) ex_heap
      = Some ([], ex_heap)
  ∧ add_sub_analysis ex_sub_bare [("a_mag", 0)] ex_heap
      = Some ([("a_mag", 0)], ex_heap)
  ∧ get_bids_inputs ex_composite (Some "rest") (Some 7) ex_heap
      = get_bids_inputs (mkAnalysis (mkClass None) (Some [ex_sub_a; ex_sub_b]))
          (Some "rest") (Some 7) ex_heap
  ∧ (Forall (λ s', default_bids_inputs (analysis_class s') = None)
            [ex_sub_a; ex_sub_b] →
     get_bids_inputs ex_composite (Some "rest") (Some 7) ex_heap
       = Some ([], ex_heap)).
Proof.
  split; [reflexivity|].
  exact (missing_defaults_tolerated (mkClass None) [ex_sub_a] [ex_sub_b]
           ex_sub_bare [("a_mag", 0)] (Some "rest") (Some 7) ex_heap eq_refl).
Defined.

Lemma string_length_app (s1 s2 : string) :
  String.length (s1 +:+ s2) = String.length s1 + String.length s2.
Proof. induction s1 as [|a s1 IH]; simpl; [done | by rewrite IH]. Qed.

(** Two prefixes that give the same name when put before one bare name are
    the same prefix. *)
Lemma string_app_inj_l (p1 p2 n : string) : p1 +:+ n = p2 +:+ n → p1 = p2.
Proof.
  revert p2. induction p1 as [|a p1 IH]; intros [|b p2]; simpl.
  - done.
  - intros Heq. apply (f_equal String.length) in Heq. simpl in Heq.
    rewrite !string_length_app in Heq. simpl in Heq. lia.
  - intros Heq. apply (f_equal String.length) in Heq. simpl in Heq.
    rewrite !string_length_app in Heq. simpl in Heq. lia.
  - intros [= -> Heq]. by rewrite (IH p2 Heq).
Qed.

(** ** Composite classes *)

Lemma elem_of_flat_declared specs s i :
  (s, i) ∈ flat_declared specs ↔
  s ∈ specs ∧ ∃ inpts, default_bids_inputs (analysis_class s) = Some inpts
                        ∧ i ∈ inpts.
Proof.
  unfold flat_declared. rewrite list_elem_of_bind. split.
  - intros (s' & Hin & Hs'). unfold sub_declared in Hin.
    destruct (default_bids_inputs (analysis_class s')) as [inpts|] eqn:Hd.
    + apply list_elem_of_fmap in Hin as (i' & [= -> ->] & Hi'). eauto.
    + by apply elem_of_nil in Hin.
  - intros (Hs & inpts & Hd & Hi). exists s. split; [|done].
    unfold sub_declared. rewrite Hd. apply list_elem_of_fmap. eauto.
Qed.

Lemma sub_write_key (h : heap) s i w :
  sub_write h (s, i) = Some w →
  ∃ o, h !! i = Some o ∧ w.1 = apply_prefix s (name o).
Proof.
  unfold sub_write. simpl. destruct (h !! i) as [o|]; [|done]. simpl.
  destruct (primary o) as [p|].
  - destruct (h !! p); [|done]. intros [= <-]. eauto.
  - intros [= <-]. eauto.
Qed.

Lemma holds_keys {f : BidsInput → BidsInput} (h : heap) d ws k :
  holds h d (prod_map id f <$> ws) → is_Some (dict_get k d) ↔ k ∈ ws.*1.
Proof.
  intros Hh. specialize (Hh k). rewrite last_entry_fmap in Hh.
  destruct (last_entry k ws) as [o|] eqn:Hk; simpl in Hh.
  - destruct Hh as (l & -> & _). split; [intros _ | by eexists].
    apply last_entry_Some in Hk as (pre & post & -> & _).
    rewrite fmap_app, fmap_cons. apply elem_of_app. right.
    apply list_elem_of_here.
  - rewrite Hh. apply last_entry_None in Hk. split; [by intros [? ?] | done].
Qed.

Lemma dict_values_inj (d : dict loc) k1 k2 l :
  NoDup (dict_values d) →
  dict_get k1 d = Some l → dict_get k2 d = Some l → k1 = k2.
Proof.
  unfold dict_values.
  intros Hnd [i Hi]%dict_get_Some_lookup [j Hj]%dict_get_Some_lookup.
  assert (i = j) as ->.
  { eapply NoDup_lookup; [exact Hnd | |];
      rewrite list_lookup_fmap; [by rewrite Hi | by rewrite Hj]. }
  congruence.
Qed.

Lemma composite_keys specs (h : heap) ws k :
  Forall2 (λ e w, sub_write h e = Some w) (flat_declared specs) ws →
  k ∈ ws.*1 ↔
  ∃ s inpts i o, s ∈ specs
                 ∧ default_bids_inputs (analysis_class s) = Some inpts
                 ∧ i ∈ inpts ∧ h !! i = Some o
                 ∧ k = apply_prefix s (name o).
Proof.
  intros Hws. split.
  - intros ([k' o'] & -> & [j Hj]%list_elem_of_lookup)%list_elem_of_fmap.
    destruct (Forall2_lookup_r _ _ _ _ _ Hws Hj) as ([s i] & He & Hw).
    apply list_elem_of_lookup_2, elem_of_flat_declared in He
      as (Hs & inpts & Hd & Hi).
    destruct (sub_write_key _ _ _ _ Hw) as (o & Ho & Hk).
    exists s, inpts, i, o. by split_and!.
  - intros (s & inpts & i & o & Hs & Hd & Hi & Ho & ->).
    assert ((s, i) ∈ flat_declared specs) as [j Hj]%list_elem_of_lookup.
    { apply elem_of_flat_declared. eauto. }
    destruct (Forall2_lookup_l _ _ _ _ _ Hws Hj) as (w & Hw & Hsw).
    destruct (sub_write_key _ _ _ _ Hsw) as (o' & Ho' & Hk).
    assert (o' = o) as -> by congruence.
    apply list_elem_of_fmap. exists w.
    split; [done | by eapply list_elem_of_lookup_2].
Qed.

(** When a key is assigned once, the assignment of a declared input with
    that key is the last one to it. *)
Lemma declared_once specs (h : heap) ws inpts s i o w :
  Forall2 (λ e w, sub_write h e = Some w) (flat_declared specs) ws →
  assigned_once (apply_prefix s (name o)) ws →
  s ∈ specs → default_bids_inputs (analysis_class s) = Some inpts → i ∈ inpts →
  h !! i = Some o →
  last_entry (apply_prefix s (name o)) ws = Some w →
  sub_write h (s, i) = Some (apply_prefix s (name o), w).
Proof.
  intros Hws Honce Hs Hd Hi Ho Hlast.
  assert ((s, i) ∈ flat_declared specs) as [j Hj]%list_elem_of_lookup.
  { apply elem_of_flat_declared. eauto. }
  destruct (Forall2_lookup_l _ _ _ _ _ Hws Hj) as ([k w'] & Hw & Hsw).
  destruct (sub_write_key _ _ _ _ Hsw) as (o' & Ho' & Hk). simpl in Hk.
  assert (o' = o) as -> by congruence. subst k.
  apply last_entry_Some in Hlast as (pre & post & Heq & _).
  assert (j = length pre) as ->.
  { apply Honce.
    - by rewrite list_lookup_fmap, Hw.
    - by rewrite Heq, list_lookup_fmap, list_lookup_middle. }
  rewrite Heq, list_lookup_middle in Hw by done. by injection Hw as <-.
Qed.

(** C5, as amended: the keys of the result for a composite class are the
    declared inputs' bare names with the prefixing function of their
    sub-analysis applied.  Two inputs of one bare name, declared by
    sub-analyses whose prefixing functions put different prefixes before a
    name, are under two different keys, both present, each with an object
    of its own: the bound state of the last input assigned to the key.
    That input is the declared input itself when the key is assigned once;
    different prefixes alone do not make it so, as a third input of
    another bare name can get the same key. *)
Theorem prefix_disambiguation (c : PyClass) (specs : list SubCompSpec) t r
    (h : heap) (s1 s2 : SubCompSpec) (inpts1 inpts2 : list loc) (i1 i2 : loc)
    (o1 o2 : BidsInput) (p1 p2 : string) :
  class_ok h (mkAnalysis c (Some specs)) →
  s1 ∈ specs → default_bids_inputs (analysis_class s1) = Some inpts1 →
  s2 ∈ specs → default_bids_inputs (analysis_class s2) = Some inpts2 →
  i1 ∈ inpts1 → i2 ∈ inpts2 →
  h !! i1 = Some o1 → h !! i2 = Some o2 → name o1 = name o2 →
  (∀ x, apply_prefix s1 x = p1 +:+ x) →
  (∀ x, apply_prefix s2 x = p2 +:+ x) →
  p1 ≠ p2 →
  ∃ ws d h',
    writes (mkAnalysis c (Some specs)) h = Some ws
    ∧ get_bids_inputs (mkAnalysis c (Some specs)) t r h = Some (d, h')
    ∧ (∀ k, is_Some (dict_get k d) ↔
         ∃ s inpts i o, s ∈ specs
                        ∧ default_bids_inputs (analysis_class s) = Some inpts
                        ∧ i ∈ inpts ∧ h !! i = Some o
                        ∧ k = apply_prefix s (name o))
    ∧ p1 +:+ name o1 ≠ p2 +:+ name o2
    ∧ ∃ l1 l2 w1 w2,
        dict_get (p1 +:+ name o1) d = Some l1
        ∧ dict_get (p2 +:+ name o2) d = Some l2
        ∧ l1 ≠ l2
        ∧ last_entry (p1 +:+ name o1) ws = Some w1
        ∧ last_entry (p2 +:+ name o2) ws = Some w2
        ∧ h' !! l1 = Some (bound t r w1)
        ∧ h' !! l2 = Some (bound t r w2)
        ∧ (assigned_once (p1 +:+ name o1) ws →
           sub_write h (s1, i1) = Some (p1 +:+ name o1, w1))
        ∧ (assigned_once (p2 +:+ name o2) ws →
           sub_write h (s2, i2) = Some (p2 +:+ name o2, w2)).
Proof.
  intros [ws Hws]%class_ok_writes
    Hs1 Hd1 Hs2 Hd2 Hi1 Hi2 Ho1 Ho2 Hname Hp1 Hp2 Hne.
  destruct (get_bids_inputs_spec _ t r h ws Hws)
    as (d & new & Hg & _ & Hnd & _ & Hh).
  exists ws, d, (h ++ new).
  assert (Forall2 (λ e w, sub_write h e = Some w) (flat_declared specs) ws)
    as Hall by by apply mapM_Some.
  assert (∀ k, is_Some (dict_get k d) ↔
            ∃ s inpts i o, s ∈ specs
                           ∧ default_bids_inputs (analysis_class s) = Some inpts
                           ∧ i ∈ inpts ∧ h !! i = Some o
                           ∧ k = apply_prefix s (name o)) as Hkeys.
  { intros k. rewrite (holds_keys _ _ _ k Hh). by apply composite_keys. }
  assert (p1 +:+ name o1 ≠ p2 +:+ name o2) as Hk.
  { rewrite Hname. intros Heq. by apply Hne, (string_app_inj_l _ _ (name o2)). }
  split_and!; [done | done | done | done |].
  assert (is_Some (dict_get (p1 +:+ name o1) d)) as [l1 Hl1].
  { apply Hkeys. exists s1, inpts1, i1, o1. by rewrite Hp1. }
  assert (is_Some (dict_get (p2 +:+ name o2) d)) as [l2 Hl2].
  { apply Hkeys. exists s2, inpts2, i2, o2. by rewrite Hp2. }
  destruct (holds_inv _ _ _ _ _ Hh Hl1) as (w1 & Hw1 & Hb1).
  destruct (holds_inv _ _ _ _ _ Hh Hl2) as (w2 & Hw2 & Hb2).
  exists l1, l2, w1, w2. split_and!; try done.
  - intros ->. by apply Hk, (dict_values_inj d _ _ l2 Hnd).
  - intros Honce. rewrite <-Hp1 in *.
    by apply (declared_once specs h ws inpts1).
  - intros Honce. rewrite <-Hp2 in *.
    by apply (declared_once specs h ws inpts2).
Qed.

Lemma prefix_disambiguation_witness :
  ∃ ws d h',
    writes ex_composite ex_heap = Some ws
    ∧ get_bids_inputs ex_composite (Some "rest") None ex_heap = Some (d, h')
    ∧ (∀ k, is_Some (dict_get k d) ↔
         ∃ s inpts i o, s ∈ [ex_sub_a; ex_sub_bare; ex_sub_b]
                        ∧ default_bids_inputs (analysis_class s) = Some inpts
                        ∧ i ∈ inpts ∧ ex_heap !! i = Some o
                        ∧ k = apply_prefix s (name o))
    ∧ "a_mag" ≠ "b_mag"
    ∧ ∃ l1 l2 w1 w2,
        dict_get "a_mag" d = Some l1
        ∧ dict_get "b_mag" d = Some l2
        ∧ l1 ≠ l2
        ∧ last_entry "a_mag" ws = Some w1
        ∧ last_entry "b_mag" ws = Some w2
        ∧ h' !! l1 = Some (bound (Some "rest") None w1)
        ∧ h' !! l2 = Some (bound (Some "rest") None w2)
        ∧ (assigned_once "a_mag" ws →
           sub_write ex_heap (ex_sub_a, 0) = Some ("a_mag", w1))
        ∧ (assigned_once "b_mag" ws →
           sub_write ex_heap (ex_sub_b, 0) = Some ("b_mag", w2)).
Proof.
  assert (class_ok ex_heap ex_composite) as Hc by sample_ok.
  assert (ex_sub_a ∈ [ex_sub_a; ex_sub_bare; ex_sub_b]) as Ha
    by apply list_elem_of_here.
  assert (ex_sub_b ∈ [ex_sub_a; ex_sub_bare; ex_sub_b]) as Hb
    by apply list_elem_of_further, list_elem_of_further, list_elem_of_here.
  assert (0 ∈ [0; 1]) as H0 by apply list_elem_of_here.
  exact (prefix_disambiguation (mkClass None) [ex_sub_a; ex_sub_bare; ex_sub_b]
           (Some "rest") None ex_heap ex_sub_a ex_sub_b [0; 1] [0; 1] 0 0
           (mkInput "mag" "mag" None None None None)
           (mkInput "mag" "mag" None None None None) "a_" "b_"
           Hc Ha eq_refl Hb eq_refl H0 H0 eq_refl eq_refl eq_refl
           (λ x, eq_refl) (λ x, eq_refl) ltac:(discriminate)).
Defined.

(** C5 fails as it is written.  The sub-analyses of [ex_clash] have the
    different prefixes "a_b_" and "a_" and declare an input named "mask"
    each, and the second declares an input named "b_mask" as well, whose key
    is that of the first "mask".  Of the three declared inputs the result
    has two: under "a_b_mask" the input "b_mask", and the "mask" of the
    first sub-analysis nowhere. *)
Lemma prefix_disambiguation_counterexample :
  ex_sub_ab ∈ [ex_sub_ab; ex_sub_a2] ∧ ex_sub_a2 ∈ [ex_sub_ab; ex_sub_a2]
  ∧ (∀ x, apply_prefix ex_sub_ab x = "a_b_" +:+ x)
  ∧ (∀ x, apply_prefix ex_sub_a2 x = "a_" +:+ x)
  ∧ "a_b_" ≠ "a_"
  ∧ default_bids_inputs (analysis_class ex_sub_ab) = Some [0]
  ∧ default_bids_inputs (analysis_class ex_sub_a2) = Some [1; 2]
  ∧ name <$> ex_clash_heap !! 0 = Some "mask"
  ∧ name <$> ex_clash_heap !! 1 = Some "mask"
  ∧ class_ok ex_clash_heap ex_clash
  ∧ ∃ d h',
      get_bids_inputs ex_clash None None ex_clash_heap = Some (d, h')
      ∧ d = [("a_b_mask", 3); ("a_mask", 4)]
      ∧ h' !! 3 = Some (mkInput "b_mask" "b_mask" None None None None)
      ∧ h' !! 4 = Some (mkInput "mask" "mask" None None None None)
      ∧ ¬ ∃ k l o, dict_get k d = Some l ∧ h' !! l = Some o
                   ∧ spec_name o = "brain_mask".
Proof.
  split_and!; try done.
  - apply list_elem_of_here.
  - apply list_elem_of_further, list_elem_of_here.
  - sample_ok.
  - eexists _, _. split; [reflexivity|]. split_and!; try done.
    intros (k & l & o & Hk & Hl & Hspec). simpl in Hk.
    repeat case_decide; simplify_eq; simpl in Hl; simplify_eq; done.
Qed.

(** The assignment at a place of the loops is the last one to its key
    when no later assignment is to that key. *)
Lemma last_entry_lookup {V} (ws : list (string * V)) j k v :
  ws !! j = Some (k, v) →
  (∀ j' kv, j < j' → ws !! j' = Some kv → kv.1 ≠ k) →
  last_entry k ws = Some v.
Proof.
  intros Hj Hlater. rewrite <-(take_drop_middle ws j (k, v) Hj).
  apply last_entry_app.
  intros ([k' v'] & -> & [n Hn]%list_elem_of_lookup)%list_elem_of_fmap.
  rewrite lookup_drop in Hn. by apply (Hlater (S j + n) (k', v')); [lia | |].
Qed.

(** C6: an associated input that a sub-analysis declares is visited by the
    loops of the composite branch, at its place [j] in the order of the
    declarations: the assignment made there is to the prefixed bare name of
    the input, of a reference to an object that the call has made, the
    input with [prefixed_primary_name] set to the prefixed bare name of its
    primary; the input itself stays as it was, after the loops and after
    the call.  Unless a later assignment is to the same key, the local
    defaults refer to that copy under the key, and the result of the call
    to its bound state.  The step of the loop body at the input is given
    too, and what every entry of the local defaults refers to: a declared
    plain input, or such a copy of a declared associated one. *)
Theorem associated_input_reprefixed (c : PyClass) (specs : list SubCompSpec)
    t r (j : nat) (spec : SubCompSpec) (i p : loc) (o po : BidsInput)
    (d0 : dict loc) (h : heap) :
  class_ok h (mkAnalysis c (Some specs)) →
  flat_declared specs !! j = Some (spec, i) →
  h !! i = Some o → primary o = Some p → h !! p = Some po →
  add_sub_input spec i d0 h
    = Some (dict_set (apply_prefix spec (name o)) (length h) d0,
            h ++ [set_prefixed_primary_name (apply_prefix spec (name po)) o])
  ∧ ∃ kvs h1 d h',
      collect_defaults (mkAnalysis c (Some specs)) h
        = Some (dict_update [] kvs, h1)
      ∧ get_bids_inputs (mkAnalysis c (Some specs)) t r h = Some (d, h')
      ∧ length kvs = length (flat_declared specs)
      ∧ (∀ l o', h !! l = Some o' → h1 !! l = Some o' ∧ h' !! l = Some o')
      ∧ (∃ l, kvs !! j = Some (apply_prefix spec (name o), l)
              ∧ length h ≤ l
              ∧ h1 !! l = Some (set_prefixed_primary_name
                                  (apply_prefix spec (name po)) o))
      ∧ ((∀ j' kv, j < j' → kvs !! j' = Some kv →
            kv.1 ≠ apply_prefix spec (name o)) →
         (∃ l, dict_get (apply_prefix spec (name o)) (dict_update [] kvs)
                 = Some l
               ∧ length h ≤ l
               ∧ h1 !! l = Some (set_prefixed_primary_name
                                   (apply_prefix spec (name po)) o))
         ∧ ∃ l', dict_get (apply_prefix spec (name o)) d = Some l'
                 ∧ h' !! l'
                   = Some (bound t r (set_prefixed_primary_name
                                        (apply_prefix spec (name po)) o)))
      ∧ ∀ k l, dict_get k (dict_update [] kvs) = Some l →
          ∃ s inpts i' o',
            s ∈ specs ∧ default_bids_inputs (analysis_class s) = Some inpts
            ∧ i' ∈ inpts ∧ h !! i' = Some o'
            ∧ k = apply_prefix s (name o')
            ∧ match primary o' with
              | Some p' =>
                  ∃ po', h !! p' = Some po' ∧ length h ≤ l
                    ∧ h1 !! l = Some (set_prefixed_primary_name
                                        (apply_prefix s (name po')) o')
              | None => l = i'
              end.
Proof.
  intros [ws Hws]%class_ok_writes Hj Hi Hp Hpo.
  split; [by apply (add_sub_input_assoc spec i d0 h o p po)|].
  destruct (collect_composite_spec c specs h ws Hws)
    as (kvs & new & Hrun & Hst & Hpl).
  destruct (get_bids_inputs_spec _ t r h ws Hws)
    as (d & new' & Hg & _ & _ & _ & Hh).
  exists kvs, (h ++ new), d, (h ++ new').
  assert (Forall2 (λ e w, sub_write h e = Some w) (flat_declared specs) ws)
    as Hall by by apply mapM_Some.
  destruct (Forall2_lookup_l _ _ _ _ _ Hall Hj) as (w & Hw & Hsw).
  assert (w = (apply_prefix spec (name o),
               set_prefixed_primary_name (apply_prefix spec (name po)) o))
    as ->.
  { unfold sub_write in Hsw. simpl in Hsw. rewrite Hi in Hsw. simpl in Hsw.
    rewrite Hp, Hpo in Hsw. simpl in Hsw. congruence. }
  destruct (Forall2_lookup_r _ _ _ _ _ Hst Hw) as ([k l] & Hkv & Hk & Hl).
  simpl in Hk, Hl. subst k.
  assert (length h ≤ l) as Hnew.
  { destruct (Forall2_lookup_l _ _ _ _ _ Hpl Hj) as (kv & Hkv' & Hplace).
    assert (kv = (apply_prefix spec (name o), l)) as -> by congruence.
    unfold sub_place in Hplace. simpl in Hplace. by rewrite Hi, Hp in Hplace. }
  split_and!; [done | done | | | by eauto | |].
  - by rewrite <-(Forall2_length _ _ _ Hpl).
  - intros l0 o0 Hl0. split; by apply lookup_app_l_Some.
  - intros Hlater.
    pose proof (last_entry_lookup kvs j _ l Hkv Hlater) as Hlast.
    split.
    + exists l. by rewrite dict_get_update_nil.
    + pose proof (stores_last _ _ _ (apply_prefix spec (name o)) Hst) as Hsl.
      specialize (Hh (apply_prefix spec (name o))).
      rewrite last_entry_fmap in Hh.
      destruct (last_entry (apply_prefix spec (name o)) ws) as [w'|].
      * destruct Hsl as (l2 & Hl2 & Hw'). simpl in Hh.
        assert (l2 = l) as -> by congruence.
        assert (w' = set_prefixed_primary_name (apply_prefix spec (name po)) o)
          as -> by congruence.
        destruct Hh as (l' & Hd & Hb). by exists l'.
      * congruence.
  - intros k l0. rewrite dict_get_update_nil.
    intros (pre & post & -> & _)%last_entry_Some.
    assert ((pre ++ (k, l0) :: post) !! length pre = Some (k, l0)) as Hj0
      by by apply list_lookup_middle.
    destruct (Forall2_lookup_r _ _ _ _ _ Hpl Hj0) as ([s i'] & He & Hplace).
    destruct (Forall2_lookup_l _ _ _ _ _ Hst Hj0) as (w0 & Hw0 & Hkw & Hlw).
    destruct (Forall2_lookup_l _ _ _ _ _ Hall He) as (w' & Hw' & Hsw').
    assert (w' = w0) as -> by congruence.
    apply list_elem_of_lookup_2, elem_of_flat_declared in He
      as (Hs & inpts & Hd & Hi').
    unfold sub_write, sub_place in *. simpl in *.
    destruct (h !! i') as [o'|] eqn:Ho'; [|done]. simpl in Hsw'.
    exists s, inpts, i', o'.
    destruct (primary o') as [p'|] eqn:Hp'.
    + destruct (h !! p') as [po'|] eqn:Hpo'; [|done].
      injection Hsw' as <-. simpl in *. split_and!; try done. eauto.
    + injection Hsw' as <-. by split_and!.
Qed.

Lemma associated_input_reprefixed_witness :
  add_sub_input ex_sub_b 1 [("a_mag", 0)] ex_heap
    = Some ([("a_mag", 0); ("b_phase", 4)],
            ex_heap ++ [mkInput "phase" "phase" (Some "fixed") (Some 9)
                                (Some 0) (Some "b_mag")])
  ∧ ∃ kvs h1 d h',
      collect_defaults ex_composite ex_heap = Some (dict_update [] kvs, h1)
      ∧ get_bids_inputs ex_composite (Some "rest") (Some 7) ex_heap
        = Some (d, h')
      ∧ length kvs = 4
      ∧ (∀ l o', ex_heap !! l = Some o' →
           h1 !! l = Some o' ∧ h' !! l = Some o')
      ∧ (∃ l, kvs !! 3 = Some ("b_phase", l)
              ∧ 4 ≤ l
              ∧ h1 !! l = Some (mkInput "phase" "phase" (Some "fixed") (Some 9)
                                        (Some 0) (Some "b_mag")))
      ∧ ((∀ j' kv, 3 < j' → kvs !! j' = Some kv → kv.1 ≠ "b_phase") →
         (∃ l, dict_get "b_phase" (dict_update [] kvs) = Some l
               ∧ 4 ≤ l
               ∧ h1 !! l = Some (mkInput "phase" "phase" (Some "fixed") (Some 9)
                                         (Some 0) (Some "b_mag")))
         ∧ ∃ l', dict_get "b_phase" d = Some l'
                 ∧ h' !! l'
                   = Some (mkInput "phase" "phase" (Some "fixed") (Some 7)
                                   (Some 0) (Some "b_mag")))
      ∧ ∀ k l, dict_get k (dict_update [] kvs) = Some l →
          ∃ s inpts i' o',
            s ∈ [ex_sub_a; ex_sub_bare; ex_sub_b]
            ∧ default_bids_inputs (analysis_class s) = Some inpts
            ∧ i' ∈ inpts ∧ ex_heap !! i' = Some o'
            ∧ k = apply_prefix s (name o')
            ∧ match primary o' with
              | Some p' =>
                  ∃ po', ex_heap !! p' = Some po' ∧ length ex_heap ≤ l
                    ∧ h1 !! l = Some (set_prefixed_primary_name
                                        (apply_prefix s (name po')) o')
              | None => l = i'
              end.
Proof.
  assert (class_ok ex_heap ex_composite) as Hc by sample_ok.
  exact (associated_input_reprefixed (mkClass None)
           [ex_sub_a; ex_sub_bare; ex_sub_b] (Some "rest") (Some 7) 3 ex_sub_b
           1 0
           (mkInput "phase" "phase" (Some "fixed") (Some 9) (Some 0) None)
           (mkInput "mag" "mag" None None None None) [("a_mag", 0)] ex_heap
           Hc eq_refl eq_refl eq_refl eq_refl).
Defined.

(** * Further properties of the resolver and the constructor *)

(** ** Order of the keys *)

Lemma filter_absent (k : string) (ks : list string) : k ∉ ks → filter (λ k', k' ≠ k) ks = ks.
Proof.
  induction ks as [|k' ks IH]; [done|].
  intros [Hne Hk]%not_elem_of_cons.
  rewrite filter_cons_True by congruence. f_equal. by apply IH.
Qed.

Lemma first_occurrences_NoDup (ks : list string) : NoDup ks → first_occurrences ks = ks.
Proof.
  induction 1 as [|k ks Hk _ IH]; simpl; [done|].
  by rewrite IH, filter_absent.
Qed.

Lemma dict_keys_update {V} (d : dict V) (ws : list (string * V)) :
  dict_keys (dict_update d ws)
  = dict_keys d ++ filter (λ k, k ∉ dict_keys d) (first_occurrences ws.*1).
Proof.
  unfold dict_update. revert d.
  induction ws as [|[k v] ws IH]; intros d.
  - simpl. by rewrite app_nil_r.
  - cbn [fold_left fst snd]. rewrite IH, dict_keys_set, fmap_cons.
    cbn [first_occurrences fst].
    destruct (decide (k ∈ dict_keys d)) as [Hin|Hout].
    + rewrite filter_cons_False by (intros Hn; by apply Hn).
      f_equal. symmetry. apply list_filter_filter_l.
      intros x Hx ->. by apply Hx.
    + rewrite filter_cons_True by done.
      rewrite <-app_assoc. f_equal. simpl. f_equal.
      rewrite list_filter_filter. apply list_filter_iff.
      intros x. rewrite not_elem_of_app, list_elem_of_singleton. tauto.
Qed.

Lemma dict_keys_update_nil {V} (ws : list (string * V)) :
  dict_keys (dict_update [] ws) = first_occurrences ws.*1.
Proof.
  rewrite dict_keys_update. simpl.
  induction (first_occurrences ws.*1) as [|k ks IH]; [done|].
  rewrite filter_cons_True by apply not_elem_of_nil. by f_equal.
Qed.

Lemma stores_keys (h : heap) kvs ws : stores h kvs ws → kvs.*1 = ws.*1.
Proof.
  induction 1 as [|kv w kvs ws [Hk _] _ IH]; [done|].
  rewrite !fmap_cons. by f_equal.
Qed.

(** Both branches of lines 36-52 as one sequence of assignments. *)
Lemma collect_defaults_kvs cls (h : heap) ws :
  writes cls h = Some ws →
  ∃ kvs new,
    collect_defaults cls h = Some (dict_update [] kvs, h ++ new)
    ∧ stores (h ++ new) kvs ws.
Proof.
  destruct cls as [c [specs|]].
  - intros (kvs & new & Hrun & Hst & _)%collect_composite_spec. eauto.
  - unfold writes, collect_defaults. simpl.
    destruct (default_bids_inputs c) as [inpts|].
    + intros Hws%mapM_Some.
      destruct (for_each_writes add_named_input (simple_write h)
                  (λ i v, v = i) h
                  (λ x w d pre, simple_write_run h pre x w d) _ _ [] [] Hws)
        as (kvs & new & Hrun & Hst & _).
      rewrite app_nil_r in *. eauto.
    + intros [= <-]. exists [], []. rewrite app_nil_r. split; [done|].
      constructor.
Qed.

(** The resolver with the order of its keys. *)
Lemma get_bids_inputs_ordered cls t r (h : heap) ws :
  writes cls h = Some ws →
  ∃ d new,
    get_bids_inputs cls t r h = Some (d, h ++ new)
    ∧ dict_keys d = first_occurrences ws.*1
    ∧ NoDup (dict_values d)
    ∧ Forall (λ v, length h ≤ v < length (h ++ new)) (dict_values d)
    ∧ holds (h ++ new) d (prod_map id (bound t r) <$> ws).
Proof.
  intros Hws.
  destruct (get_bids_inputs_spec cls t r h ws Hws)
    as (d & new & Hg & _ & Hnd & Hrange & Hh).
  exists d, new. split_and!; try done.
  destruct (collect_defaults_kvs cls h ws Hws) as (kvs & new1 & Hc & Hst).
  assert (NoDup (dict_keys (dict_update ([] : dict loc) kvs))) as Hndk
    by apply dict_update_NoDup, NoDup_nil_2.
  destruct (holds_objs _ _ _ Hndk (stores_holds _ _ _ Hst)) as [objs Hobjs].
  destruct (bind_inputs_spec t r _ _ objs Hndk Hobjs) as (d' & Hb & Hkeys & _).
  unfold get_bids_inputs in Hg. rewrite (bind_run _ _ _ _ _ Hc), Hb in Hg.
  injection Hg as -> _.
  by rewrite Hkeys, dict_keys_update_nil, (stores_keys _ _ _ Hst).
Qed.

(** X1: the result lists its keys in the order in which the declared inputs
    are visited, a key assigned several times standing where it was
    assigned first; when no key is assigned twice this is the order of the
    declarations. *)
Theorem resolver_key_order cls t r (h : heap) :
  class_ok h cls →
  ∃ ws d h',
    writes cls h = Some ws
    ∧ get_bids_inputs cls t r h = Some (d, h')
    ∧ dict_keys d = first_occurrences ws.*1
    ∧ (NoDup ws.*1 → dict_keys d = ws.*1).
Proof.
  intros [ws Hws]%class_ok_writes.
  destruct (get_bids_inputs_ordered cls t r h ws Hws) as (d & new & Hg & Hk & _).
  exists ws, d, (h ++ new). split_and!; [done | done | done |].
  intros Hnd. by rewrite Hk, first_occurrences_NoDup.
Qed.

Lemma resolver_key_order_witness :
  class_ok ex_heap ex_duplicates
  ∧ ∃ ws d h',
      writes ex_duplicates ex_heap = Some ws
      ∧ get_bids_inputs ex_duplicates (Some "rest") None ex_heap = Some (d, h')
      ∧ dict_keys d = first_occurrences ws.*1
      ∧ (NoDup ws.*1 → dict_keys d = ws.*1).
Proof.
  assert (class_ok ex_heap ex_duplicates) as Hc by sample_ok.
  split; [exact Hc|].
  exact (resolver_key_order ex_duplicates (Some "rest") None ex_heap Hc).
Defined.

(** ** What the returned objects are *)

Lemma bound_fields t r o :
  name (bound t r o) = name o ∧ spec_name (bound t r o) = spec_name o
  ∧ primary (bound t r o) = primary o
  ∧ prefixed_primary_name (bound t r o) = prefixed_primary_name o
  ∧ _repository (bound t r o) = r.
Proof. unfold bound. by destruct (task o), t. Qed.

Lemma last_entry_elem {V} k (ws : list (string * V)) v :
  last_entry k ws = Some v → (k, v) ∈ ws.
Proof.
  intros (pre & post & -> & _)%last_entry_Some.
  apply elem_of_app. right. apply list_elem_of_here.
Qed.

(** Every assignment of lines 36-52 stores a declared input, or, in the
    composite branch, a copy of one that differs in
    [prefixed_primary_name] at most. *)
Lemma writes_sources cls (h : heap) ws k w :
  writes cls h = Some ws → (k, w) ∈ ws →
  ∃ i o, i ∈ class_refs cls ∧ h !! i = Some o
         ∧ name w = name o ∧ spec_name w = spec_name o
         ∧ primary w = primary o
         ∧ (subcomp_specs cls = None → k = name o ∧ w = o).
Proof.
  unfold writes, class_refs. intros Hws [j Hj]%list_elem_of_lookup.
  destruct (subcomp_specs cls) as [specs|].
  - apply mapM_Some in Hws.
    destruct (Forall2_lookup_r _ _ _ _ _ Hws Hj) as ([s i] & He & Hsw).
    unfold sub_write in Hsw. simpl in Hsw.
    destruct (h !! i) as [o|] eqn:Ho; [|done]. simpl in Hsw.
    exists i, o. split.
    { apply list_elem_of_fmap. exists (s, i).
      split; [done | by eapply list_elem_of_lookup_2]. }
    destruct (primary o) as [p|] eqn:Hp.
    + destruct (h !! p); [|done]. injection Hsw as <- <-. by split_and!.
    + injection Hsw as <- <-. by split_and!.
  - destruct (default_bids_inputs (class_attrs cls)) as [inpts|].
    + apply mapM_Some in Hws.
      destruct (Forall2_lookup_r _ _ _ _ _ Hws Hj) as (i & Hi & Hsw).
      unfold simple_write in Hsw.
      destruct (h !! i) as [o|] eqn:Ho; [|done]. injection Hsw as <- <-.
      exists i, o. split; [by eapply list_elem_of_lookup_2|]. by split_and!.
    + injection Hws as <-. by rewrite lookup_nil in Hj.
Qed.

(** X2: every entry of the result refers to an object that has the [name],
    [spec_name] and [primary] of a declared default input and whose
    [_repository] is the repository argument, whatever the declared input
    had there; for a simple class the key is the [name] of the object and
    [prefixed_primary_name] is that of the declared input. *)
Theorem resolver_entry_fields cls t r (h : heap) :
  class_ok h cls →
  ∃ d h',
    get_bids_inputs cls t r h = Some (d, h')
    ∧ ∀ k l, dict_get k d = Some l →
        ∃ i o o',
          i ∈ class_refs cls ∧ h !! i = Some o ∧ h' !! l = Some o'
          ∧ name o' = name o ∧ spec_name o' = spec_name o
          ∧ primary o' = primary o ∧ _repository o' = r
          ∧ (subcomp_specs cls = None →
             k = name o'
             ∧ prefixed_primary_name o' = prefixed_primary_name o).
Proof.
  intros [ws Hws]%class_ok_writes.
  destruct (get_bids_inputs_spec cls t r h ws Hws)
    as (d & new & Hg & _ & _ & _ & Hh).
  exists d, (h ++ new). split; [done|]. intros k l Hl.
  destruct (holds_inv _ _ _ _ _ Hh Hl) as (w & Hw%last_entry_elem & Ho').
  destruct (writes_sources cls h ws k w Hws Hw)
    as (i & o & Hi & Ho & Hn & Hsn & Hp & Hsimple).
  destruct (bound_fields t r w) as (Hbn & Hbsn & Hbp & Hbppn & Hbr).
  exists i, o, (bound t r w).
  split_and!; [done | done | done | congruence.. | done |].
  intros Hnone. destruct (Hsimple Hnone) as [-> ->]. by split.
Qed.

Lemma resolver_entry_fields_witness :
  class_ok ex_heap ex_simple
  ∧ ∃ d h',
      get_bids_inputs ex_simple (Some "rest") (Some 7) ex_heap = Some (d, h')
      ∧ ∀ k l, dict_get k d = Some l →
          ∃ i o o',
            i ∈ class_refs ex_simple ∧ ex_heap !! i = Some o ∧ h' !! l = Some o'
            ∧ name o' = name o ∧ spec_name o' = spec_name o
            ∧ primary o' = primary o ∧ _repository o' = Some 7
            ∧ (subcomp_specs ex_simple = None →
               k = name o'
               ∧ prefixed_primary_name o' = prefixed_primary_name o).
Proof.
  assert (class_ok ex_heap ex_simple) as Hc by sample_ok.
  split; [exact Hc|].
  exact (resolver_entry_fields ex_simple (Some "rest") (Some 7) ex_heap Hc).
Defined.

(** X3: the copies are shallow.  The [primary] of a returned associated
    input is an object that existed before the call, unchanged by it, and
    never one of the objects the result refers to: the returned copy of the
    primary is another object. *)
Theorem resolver_shares_primary cls t r (h : heap) :
  class_ok h cls →
  ∃ d h',
    get_bids_inputs cls t r h = Some (d, h')
    ∧ ∀ k l o' p, dict_get k d = Some l → h' !! l = Some o' →
        primary o' = Some p →
        p < length h ∧ h' !! p = h !! p
        ∧ ∀ k2, dict_get k2 d ≠ Some p.
Proof.
  intros Hok. destruct (class_ok_writes h cls Hok) as [ws Hws].
  destruct (get_bids_inputs_spec cls t r h ws Hws)
    as (d & new & Hg & _ & _ & Hrange & Hh).
  exists d, (h ++ new). split; [done|]. intros k l o' p Hl Ho' Hp.
  destruct (holds_inv _ _ _ _ _ Hh Hl) as (w & Hw%last_entry_elem & Hb).
  destruct (writes_sources cls h ws k w Hws Hw)
    as (i & o & Hi & Ho & _ & _ & Hpo & _).
  destruct (bound_fields t r w) as (_ & _ & Hbp & _).
  assert (primary o = Some p) as Hoprim by congruence.
  assert (p < length h) as Hlt.
  { apply (proj1 (Forall_forall _ _) Hok) in Hi. unfold ref_ok in Hi.
    by rewrite Ho, Hoprim in Hi. }
  split_and!; [done | by rewrite lookup_app_l |].
  intros k2 [j Hj]%dict_get_Some_lookup.
  assert (p ∈ dict_values d) as Hin.
  { unfold dict_values. apply list_elem_of_fmap. exists (k2, p).
    split; [done | by eapply list_elem_of_lookup_2]. }
  apply (proj1 (Forall_forall _ _) Hrange) in Hin. lia.
Qed.

Lemma resolver_shares_primary_witness :
  class_ok ex_heap ex_simple
  ∧ ∃ d h',
      get_bids_inputs ex_simple (Some "rest") (Some 7) ex_heap = Some (d, h')
      ∧ ∀ k l o' p, dict_get k d = Some l → h' !! l = Some o' →
          primary o' = Some p →
          p < length ex_heap ∧ h' !! p = ex_heap !! p
          ∧ ∀ k2, dict_get k2 d ≠ Some p.
Proof.
  assert (class_ok ex_heap ex_simple) as Hc by sample_ok.
  split; [exact Hc|].
  exact (resolver_shares_primary ex_simple (Some "rest") (Some 7) ex_heap Hc).
Defined.

(** ** Repeated calls *)

(** X4: what a call returns does not depend on the calls made before it:
    after a call with any task and repository, a second call gives the
    keys, in the same order, and under each key an object with the field
    values that the same call would have given as the first one. *)
Theorem resolver_calls_independent cls t1 r1 t2 r2 (h : heap) :
  class_ok h cls →
  ∃ d1 h1 d2 h2 da ha,
    get_bids_inputs cls t1 r1 h = Some (d1, h1)
    ∧ get_bids_inputs cls t2 r2 h1 = Some (d2, h2)
    ∧ get_bids_inputs cls t2 r2 h = Some (da, ha)
    ∧ dict_keys d2 = dict_keys da
    ∧ ∀ k, match dict_get k da with
           | Some la =>
               ∃ l2 o, dict_get k d2 = Some l2 ∧ h2 !! l2 = Some o
                       ∧ ha !! la = Some o
           | None => dict_get k d2 = None
           end.
Proof.
  intros [ws Hws]%class_ok_writes.
  destruct (get_bids_inputs_ordered cls t1 r1 h ws Hws)
    as (d1 & new1 & Hg1 & _).
  destruct (get_bids_inputs_ordered cls t2 r2 (h ++ new1) ws
              (writes_ext _ _ _ _ Hws))
    as (d2 & new2 & Hg2 & Hk2 & _ & _ & Hh2).
  destruct (get_bids_inputs_ordered cls t2 r2 h ws Hws)
    as (da & newa & Hga & Hka & _ & _ & Hha).
  exists d1, (h ++ new1), d2, ((h ++ new1) ++ new2), da, (h ++ newa).
  split_and!; [done | done | done | congruence |].
  intros k. specialize (Hh2 k). specialize (Hha k).
  destruct (last_entry k (prod_map id (bound t2 r2) <$> ws)) as [o|].
  - destruct Hha as (la & -> & Hoa). destruct Hh2 as (l2 & Hl2 & Ho2). eauto.
  - by rewrite Hha.
Qed.

Lemma resolver_calls_independent_witness :
  class_ok ex_heap ex_composite
  ∧ ∃ d1 h1 d2 h2 da ha,
      get_bids_inputs ex_composite (Some "rest") (Some 7) ex_heap = Some (d1, h1)
      ∧ get_bids_inputs ex_composite None None h1 = Some (d2, h2)
      ∧ get_bids_inputs ex_composite None None ex_heap = Some (da, ha)
      ∧ dict_keys d2 = dict_keys da
      ∧ ∀ k, match dict_get k da with
             | Some la =>
                 ∃ l2 o, dict_get k d2 = Some l2 ∧ h2 !! l2 = Some o
                         ∧ ha !! la = Some o
             | None => dict_get k d2 = None
             end.
Proof.
  assert (class_ok ex_heap ex_composite) as Hc by sample_ok.
  split; [exact Hc|].
  exact (resolver_calls_independent ex_composite (Some "rest") (Some 7)
           None None ex_heap Hc).
Defined.

(** ** Order of the merged inputs *)

(** X5: on a BIDS dataset the mapping handed to the base constructor lists
    the keys of the defaults first, in their order, an overridden default
    keeping its place, and after them the names that only the explicit
    inputs have, in the order of the explicit inputs. *)
Theorem init_merge_order cls n ds p inputs bt (h : heap) :
  type ds = "bids" → class_ok h cls → inputs_ok h inputs →
  ∃ e dflt h' r,
    normalise_inputs inputs h = Some (e, h)
    ∧ get_bids_inputs cls bt None h = Some (dflt, h')
    ∧ __init__ cls n ds p inputs bt h = Some (r, h')
    ∧ dict_keys (super_inputs r)
      = dict_keys dflt ++ filter (λ k, k ∉ dict_keys dflt) (dict_keys e).
Proof.
  intros Hty [ws Hws]%class_ok_writes Hin.
  destruct (normalise_inputs_ok h inputs Hin) as (e & He & Hnd).
  destruct (get_bids_inputs_spec cls bt None h ws Hws) as (dflt & new & Hg & _).
  exists e, dflt, (h ++ new). eexists. split_and!; [done | done | |].
  - by apply init_bids_run.
  - simpl. rewrite dict_keys_update. f_equal.
    unfold dict_keys in *. by rewrite (first_occurrences_NoDup _ Hnd).
Qed.

Lemma init_merge_order_witness :
  type ex_bids = "bids" ∧ class_ok ex_heap ex_simple
  ∧ inputs_ok ex_heap (InputsList [2; 3])
  ∧ ∃ e dflt h' r,
      normalise_inputs (InputsList [2; 3]) ex_heap = Some (e, ex_heap)
      ∧ get_bids_inputs ex_simple None None ex_heap = Some (dflt, h')
      ∧ __init__ ex_simple "study" ex_bids 0 (InputsList [2; 3]) None ex_heap
          = Some (r, h')
      ∧ dict_keys (super_inputs r)
        = dict_keys dflt ++ filter (λ k, k ∉ dict_keys dflt) (dict_keys e).
Proof.
  assert (class_ok ex_heap ex_simple) as Hc by sample_ok.
  assert (inputs_ok ex_heap (InputsList [2; 3])) as Hi by sample_ok.
  split_and!; [reflexivity | exact Hc | exact Hi |].
  exact (init_merge_order ex_simple "study" ex_bids 0 (InputsList [2; 3]) None
           ex_heap eq_refl Hc Hi).
Defined.

(** * Properties of the command line *)

(** ** Strings *)

Lemma string_app_cons x (a b : string) : String x a +:+ b = String x (a +:+ b).
Proof. reflexivity. Qed.

Lemma string_app_assoc (a b c : string) : (a +:+ b) +:+ c = a +:+ b +:+ c.
Proof.
  induction a as [|x a IH]; [done|]. by rewrite !string_app_cons, IH.
Qed.

Lemma string_app_nil_r (a : string) : a +:+ "" = a.
Proof.
  induction a as [|x a IH]; [done|]. by rewrite string_app_cons, IH.
Qed.

Lemma str_split_nonempty sep s : str_split sep s ≠ [].
Proof.
  destruct s as [|c s]; simpl; [done|].
  case_decide; [done|]. by destruct (str_split sep s).
Qed.

Lemma str_join_cons sep part rest :
  rest ≠ [] → str_join sep (part :: rest) = part +:+ sep +:+ str_join sep rest.
Proof. by destruct rest. Qed.

Lemma str_join_split sep s : str_join (String sep "") (str_split sep s) = s.
Proof.
  induction s as [|c s IH]; [done|]. cbn [str_split].
  case_decide as Hc.
  - rewrite str_join_cons by apply str_split_nonempty. rewrite IH. by subst.
  - pose proof (str_split_nonempty sep s) as Hne.
    destruct (str_split sep s) as [|part parts]; [done|].
    destruct parts as [|part' parts].
    + simpl in *. by rewrite IH.
    + rewrite str_join_cons by done. rewrite str_join_cons in IH by done.
      by rewrite <-IH.
Qed.

Lemma str_split_free sep s :
  Forall (λ part, str_contains sep part = false) (str_split sep s).
Proof.
  induction s as [|c s IH]; [by repeat constructor|]. cbn [str_split].
  case_decide as Hc.
  - by constructor.
  - destruct (str_split sep s) as [|part parts].
    + repeat constructor. simpl. by rewrite decide_False.
    + apply Forall_cons in IH as [Hpart Hparts]. constructor; [|done].
      simpl. by rewrite decide_False.
Qed.

Lemma str_split_absent sep s :
  str_contains sep s = false → str_split sep s = [s].
Proof.
  induction s as [|c s IH]; [done|]. simpl.
  case_decide; [done|]. intros Hs. by rewrite (IH Hs).
Qed.

Lemma str_split_app sep a b :
  str_split sep (a +:+ String sep b) = str_split sep a ++ str_split sep b.
Proof.
  induction a as [|c a IH]; simpl.
  - by rewrite decide_True.
  - case_decide; [by rewrite IH|]. rewrite IH.
    pose proof (str_split_nonempty sep a) as Hne.
    by destruct (str_split sep a).
Qed.

Lemma str_contains_app sep a b :
  str_contains sep (a +:+ b) = str_contains sep a || str_contains sep b.
Proof.
  induction a as [|c a IH]; [done|]. simpl. by case_decide.
Qed.

Lemma str_contains_split sep s :
  str_contains sep s = true → removelast (str_split sep s) ≠ [].
Proof.
  induction s as [|c s IH]; [done|]. cbn [str_contains str_split].
  case_decide as Hc.
  - intros _. pose proof (str_split_nonempty sep s).
    simpl. by destruct (str_split sep s).
  - intros Hs%IH. destruct (str_split sep s) as [|part [|part' parts]]; done.
Qed.

Lemma str_join_snoc sep parts part :
  parts ≠ [] →
  str_join sep (parts ++ [part]) = str_join sep parts +:+ sep +:+ part.
Proof.
  induction parts as [|p parts IH]; [done|]. intros _.
  destruct parts as [|p' parts]; [done|].
  change ((p :: p' :: parts) ++ [part]) with (p :: ((p' :: parts) ++ [part])).
  rewrite str_join_cons by (by destruct parts).
  rewrite IH by done. rewrite (str_join_cons sep p (p' :: parts)) by done.
  by rewrite !string_app_assoc.
Qed.

Lemma class_path_parts_spec (class_str module_name class_name : string) :
  str_contains "."%char class_name = false →
  (class_str = module_name +:+ "." +:+ class_name ↔
   str_contains "."%char class_str = true
   ∧ module_name_of class_str = module_name
   ∧ class_name_of class_str = class_name)
  ∧ (str_contains "."%char class_str = false →
     module_name_of class_str = "" ∧ class_name_of class_str = class_str)
  ∧ str_contains "."%char (class_name_of class_str) = false.
Proof.
  intros Hfree. unfold module_name_of, class_name_of. split_and!.
  - split.
    + intros ->. change ("." +:+ class_name) with (String "."%char class_name).
      rewrite str_split_app, (str_split_absent _ class_name Hfree).
      rewrite removelast_last, last_last.
      rewrite str_contains_app. simpl. rewrite orb_true_r.
      split_and!; [done | apply (str_join_split "."%char) | done].
    + intros (Hdot & <- & <-).
      pose proof (str_contains_split _ _ Hdot) as Hne.
      pose proof (str_split_nonempty "."%char class_str) as Hparts.
      rewrite <-str_join_snoc by done.
      rewrite <-app_removelast_last by done.
      symmetry. apply (str_join_split "."%char).
  - intros Hs. by rewrite (str_split_absent _ _ Hs).
  - pose proof (str_split_free "."%char class_str) as Hall.
    pose proof (str_split_nonempty "."%char class_str) as Hparts.
    rewrite (app_removelast_last "" Hparts) in Hall.
    apply Forall_app in Hall as [_ Hlast]. by apply Forall_cons in Hlast as [? _].
Qed.

(** X6: a class path with a dot is its module name, a dot and its class
    name, a path without one is the class name with the empty module name;
    the class name never has a dot, and this is the only way to take a path
    apart so. *)
Theorem class_path_parts (class_str module_name class_name : string) :
  str_contains "."%char class_name = false →
  (class_str = module_name +:+ "." +:+ class_name ↔
   str_contains "."%char class_str = true
   ∧ module_name_of class_str = module_name
   ∧ class_name_of class_str = class_name)
  ∧ (str_contains "."%char class_str = false →
     module_name_of class_str = "" ∧ class_name_of class_str = class_str)
  ∧ str_contains "."%char (class_name_of class_str) = false.
Proof. apply class_path_parts_spec. Qed.

Lemma class_path_parts_witness :
  str_contains "."%char "T1" = false
  ∧ ("mri.structural.T1" = "mri.structural" +:+ "." +:+ "T1" ↔
     str_contains "."%char "mri.structural.T1" = true
     ∧ module_name_of "mri.structural.T1" = "mri.structural"
     ∧ class_name_of "mri.structural.T1" = "T1")
  ∧ (str_contains "."%char "mri.structural.T1" = false →
     module_name_of "mri.structural.T1" = ""
     ∧ class_name_of "mri.structural.T1" = "mri.structural.T1")
  ∧ str_contains "."%char (class_name_of "mri.structural.T1") = false.
Proof.
  split; [reflexivity|].
  exact (class_path_parts "mri.structural.T1" "mri.structural" "T1" eq_refl).
Defined.

(** ** [resolve_class] *)

Lemma string_app_eq_nil (a b : string) : a +:+ b = "" → a = "" ∧ b = "".
Proof. destruct a; [done|]. by rewrite string_app_cons. Qed.

Lemma candidates_tried class_str prefixes :
  candidates class_str prefixes
  = tried (module_name_of class_str) (None :: (Some <$> prefixes)).
Proof.
  unfold candidates, tried. cbn [omap list_omap mod_name_of].
  assert (omap (λ prefix,
            if decide (mod_name_of (module_name_of class_str) prefix = "")
            then None
            else Some (str_strip "."%char
                         (mod_name_of (module_name_of class_str) prefix)))
            (Some <$> prefixes)
          = (λ pre, str_strip "."%char
                      (pre +:+ "." +:+ module_name_of class_str)) <$> prefixes)
    as ->.
  { induction prefixes as [|pre prefixes IH]; [done|].
    rewrite !fmap_cons. cbn [omap list_omap mod_name_of].
    rewrite decide_False.
    - by rewrite <-IH.
    - intros [_ [[=] _]%string_app_eq_nil]%string_app_eq_nil. }
  by case_decide.
Qed.

Lemma resolve_loop_returns import_module module_name class_name prefixes v :
  resolve_loop import_module module_name class_name prefixes = Returns v ↔
  (v = PyNone
   ∧ Forall (misses import_module class_name) (tried module_name prefixes))
  ∨ ∃ pre m post attrs,
      tried module_name prefixes = pre ++ m :: post
      ∧ Forall (misses import_module class_name) pre
      ∧ import_module m = Imported attrs ∧ attrs class_name = Some v.
Proof.
  induction prefixes as [|prefix prefixes IH]; cbn [resolve_loop tried omap list_omap].
  - split.
    + intros [= <-]. left. split; [done | constructor].
    + intros [[-> _]|(pre & m & post & attrs & Hnil & _)]; [done|].
      by destruct pre.
  - fold (mod_name_of module_name prefix).
    change (omap _ prefixes) with (tried module_name prefixes).
    case_decide as Hempty; [exact IH|].
    set (m0 := str_strip "."%char (mod_name_of module_name prefix)).
    assert (∀ (Hmiss : misses import_module class_name m0),
      resolve_loop import_module module_name class_name prefixes = Returns v ↔
      (v = PyNone
       ∧ Forall (misses import_module class_name)
           (m0 :: tried module_name prefixes))
      ∨ ∃ pre m post attrs,
          m0 :: tried module_name prefixes = pre ++ m :: post
          ∧ Forall (misses import_module class_name) pre
          ∧ import_module m = Imported attrs ∧ attrs class_name = Some v)
      as Hskip.
    { intros Hmiss. rewrite IH. split.
      - intros [[-> Hall]|(pre & m & post & attrs & Heq & Hpre & Hm & Hv)].
        + left. split; [done | by constructor].
        + right. exists (m0 :: pre), m, post, attrs. rewrite Heq.
          split_and!; [done | by constructor | done | done].
      - intros [[-> Hall]|(pre & m & post & attrs & Heq & Hpre & Hm & Hv)].
        + left. split; [done | by apply Forall_cons in Hall as [_ ?]].
        + destruct pre as [|m1 pre].
          * injection Heq as <- _. destruct Hmiss as [Hnf|(a & Ha & Hnone)];
              congruence.
          * injection Heq as <- Heq. right. exists pre, m, post, attrs.
            apply Forall_cons in Hpre as [_ Hpre]. by split_and!. }
    destruct (import_module m0) as [attrs| |e] eqn:Himp.
    + destruct (attrs class_name) as [cls|] eqn:Hattr.
      * split.
        -- intros [= <-]. right. exists [], m0, (tried module_name prefixes), attrs.
           split_and!; [done | constructor | done | done].
        -- intros [[-> Hall]|(pre & m & post & attrs' & Heq & Hpre & Hm & Hv)].
           ++ apply Forall_cons in Hall as [[Hnf|(a & Ha & Hnone)] _];
                congruence.
           ++ destruct pre as [|m1 pre].
              ** injection Heq as <- _. congruence.
              ** injection Heq as <- _.
                 apply Forall_cons in Hpre as [[Hnf|(a & Ha & Hnone)] _];
                   congruence.
      * apply Hskip. right. eauto.
    + apply Hskip. by left.
    + split; [done|].
      intros [[-> Hall]|(pre & m & post & attrs' & Heq & Hpre & Hm & Hv)].
      * apply Forall_cons in Hall as [[Hnf|(a & Ha & Hnone)] _]; congruence.
      * destruct pre as [|m1 pre].
        -- injection Heq as <- _. congruence.
        -- injection Heq as <- _.
           apply Forall_cons in Hpre as [[Hnf|(a & Ha & Hnone)] _]; congruence.
Qed.

Lemma resolve_class_spec (import_module : string → ImportOutcome)
    (class_str : string) (prefixes : list string) (v : PyValue) :
  resolve_class import_module class_str prefixes = Returns v ↔
  v ≠ PyNone
  ∧ ∃ pre m post attrs,
      candidates class_str prefixes = pre ++ m :: post
      ∧ Forall (misses import_module (class_name_of class_str)) pre
      ∧ import_module m = Imported attrs
      ∧ attrs (class_name_of class_str) = Some v.
Proof.
  rewrite candidates_tried. unfold resolve_class.
  fold (module_name_of class_str). fold (class_name_of class_str).
  pose proof (resolve_loop_returns import_module (module_name_of class_str)
                (class_name_of class_str) (None :: (Some <$> prefixes)))
    as Hloop.
  destruct (resolve_loop import_module (module_name_of class_str)
              (class_name_of class_str) (None :: (Some <$> prefixes)))
    as [[|id]|e].
  - split; [done|]. intros [Hv Hex].
    destruct (proj1 (Hloop PyNone) eq_refl)
      as [[_ Hall]|(pre' & m' & post' & attrs' & Heq' & Hpre' & Hm' & Hv')].
    + destruct Hex as (pre & m & post & attrs & Heq & _ & Hm & Hattr).
      rewrite Heq in Hall. apply Forall_app in Hall as [_ Hall].
      apply Forall_cons in Hall as [[Hnf|(a & Ha & Hnone)] _]; congruence.
    + assert (Returns PyNone = Returns v) as [= <-]; [|done].
      apply Hloop. by right.
  - split.
    + intros [= <-]. split; [done|].
      destruct (proj1 (Hloop (PyObject id)) eq_refl) as [[[=] _]|Hex]; done.
    + intros [_ Hex]. by apply Hloop; right.
  - split; [done|]. intros [_ Hex].
    by assert (Raises e = Returns v) as [=] by (apply Hloop; by right).
Qed.

(** X7: [resolve_class] returns a value exactly when some module among the
    names it tries, the bare module name first and then the name under each
    prefix, is imported and has the class name as an attribute other than
    [None], while every name tried before it is not found or lacks the
    attribute; the value is that attribute of the first such module. *)
Theorem resolve_class_returns (import_module : string → ImportOutcome)
    (class_str : string) (prefixes : list string) (v : PyValue) :
  resolve_class import_module class_str prefixes = Returns v ↔
  v ≠ PyNone
  ∧ ∃ pre m post attrs,
      candidates class_str prefixes = pre ++ m :: post
      ∧ Forall (misses import_module (class_name_of class_str)) pre
      ∧ import_module m = Imported attrs
      ∧ attrs (class_name_of class_str) = Some v.
Proof. apply resolve_class_spec. Qed.

Lemma resolve_loop_fails import_module module_name class_name prefixes
    pre m post x :
  tried module_name prefixes = pre ++ m :: post →
  Forall (misses import_module class_name) pre →
  import_module m = ImportFails x →
  resolve_loop import_module module_name class_name prefixes
    = Raises (External x).
Proof.
  revert pre. induction prefixes as [|prefix prefixes IH]; intros pre;
    cbn [resolve_loop tried omap list_omap].
  - by destruct pre.
  - fold (mod_name_of module_name prefix).
    change (omap _ prefixes) with (tried module_name prefixes).
    case_decide as Hempty; [apply IH|].
    destruct pre as [|m1 pre]; intros [= <- Heq] Hpre Hm.
    + by rewrite Hm.
    + apply Forall_cons in Hpre as [[Hnf|(a & Ha & Hnone)] Hpre].
      * rewrite Hnf. by eapply IH.
      * rewrite Ha, Hnone. by eapply IH.
Qed.

(** The first name that does not end its round in [continue]. *)
Lemma first_hit import_module class_name (mods : list string) :
  Forall (misses import_module class_name) mods
  ∨ ∃ pre m post,
      mods = pre ++ m :: post
      ∧ Forall (misses import_module class_name) pre
      ∧ ((∃ attrs v, import_module m = Imported attrs
                     ∧ attrs class_name = Some v)
         ∨ ∃ x, import_module m = ImportFails x).
Proof.
  induction mods as [|m mods IH]; [left; constructor|].
  assert (misses import_module class_name m
          ∨ (∃ attrs v, import_module m = Imported attrs
                        ∧ attrs class_name = Some v)
          ∨ ∃ x, import_module m = ImportFails x) as [Hmiss|Hhit].
  { unfold misses. destruct (import_module m) as [attrs| |x]; [|by eauto..].
    destruct (attrs class_name) as [v|] eqn:Hv; eauto 10. }
  - destruct IH as [Hall|(pre & m' & post & -> & Hpre & Hm')].
    + left. by constructor.
    + right. exists (m :: pre), m', post. split_and!; [done | by constructor | done].
  - right. exists [], m, mods. split_and!; [done | constructor | done].
Qed.

(** X8: [resolve_class] raises the usage error exactly when every module
    name it tries is not found or lacks the class name, or when the first
    module that has the class name has it as [None], whatever the names
    after it lead to.  Its only other exception is that of an import that
    fails in another way, at the first name that is found. *)
Theorem resolve_class_raises (import_module : string → ImportOutcome)
    (class_str : string) (prefixes : list string) (e : Exception) :
  resolve_class import_module class_str prefixes = Raises e ↔
  (e = BananaUsageError ("Did not find class '" +:+ class_str +:+ "'")
   ∧ (Forall (misses import_module (class_name_of class_str))
             (candidates class_str prefixes)
      ∨ ∃ pre m post attrs,
          candidates class_str prefixes = pre ++ m :: post
          ∧ Forall (misses import_module (class_name_of class_str)) pre
          ∧ import_module m = Imported attrs
          ∧ attrs (class_name_of class_str) = Some PyNone))
  ∨ ∃ pre m post x,
      candidates class_str prefixes = pre ++ m :: post
      ∧ Forall (misses import_module (class_name_of class_str)) pre
      ∧ import_module m = ImportFails x
      ∧ e = External x.
Proof.
  rewrite candidates_tried. unfold resolve_class.
  fold (module_name_of class_str). fold (class_name_of class_str).
  set (mn := module_name_of class_str). set (cn := class_name_of class_str).
  set (ps := None :: (Some <$> prefixes)).
  pose proof (resolve_loop_returns import_module mn cn ps) as Hret.
  pose proof (resolve_loop_fails import_module mn cn ps) as Hfail.
  destruct (first_hit import_module cn (tried mn ps))
    as [Hall|(pre & m & post & Heq & Hpre & [(attrs & v & Hm & Hv)|[x Hx]])].
  - rewrite (proj2 (Hret PyNone)) by (left; done). split.
    + intros [= <-]. left. split; [done | by left].
    + intros [[-> _]|(pre & m & post & x & Heq & _ & Hm & _)]; [done|].
      rewrite Heq in Hall. apply Forall_app in Hall as [_ Hall].
      apply Forall_cons in Hall as [[Hnf|(a & Ha & Hnone)] _]; congruence.
  - rewrite (proj2 (Hret v)) by (right; eauto 10).
    assert (∀ pre' m' post', tried mn ps = pre' ++ m' :: post' →
              Forall (misses import_module cn) pre' →
              ¬ misses import_module cn m' → pre' = pre ∧ m' = m) as Huniq.
    { intros pre' m' post' Heq' Hpre' Hm'. rewrite Heq in Heq'.
      clear Hret Hfail Heq. revert pre' Heq' Hpre'.
      induction pre as [|m1 pre IHpre]; intros [|m1' pre'] [= ]; intros;
        simplify_eq.
      - done.
      - apply Forall_cons in Hpre' as [[Hnf|(a & Ha & Hnone)] _]; congruence.
      - apply Forall_cons in Hpre as [Hm1 _]. done.
      - apply Forall_cons in Hpre as [_ Hpre].
        apply Forall_cons in Hpre' as [_ Hpre'].
        destruct (IHpre Hpre pre' ltac:(done) Hpre') as [-> ->]; done. }
    destruct v as [|id].
    + split.
      * intros [= <-]. left. split; [done|]. right. eauto 10.
      * intros [[-> _]|(pre' & m' & post' & x & Heq' & Hpre' & Hm' & _)]; [done|].
        destruct (Huniq pre' m' post' Heq' Hpre') as [_ ->].
        -- intros [Hnf|(a & Ha & Hnone)]; congruence.
        -- congruence.
    + split; [done|].
      intros [[_ [Hall|(pre' & m' & post' & attrs' & Heq' & Hpre' & Hm' & Hv')]]
             |(pre' & m' & post' & x & Heq' & Hpre' & Hm' & _)].
      * rewrite Heq in Hall. apply Forall_app in Hall as [_ Hall].
        apply Forall_cons in Hall as [[Hnf|(a & Ha & Hnone)] _]; congruence.
      * destruct (Huniq pre' m' post' Heq' Hpre') as [_ ->].
        -- intros [Hnf|(a & Ha & Hnone)]; congruence.
        -- congruence.
      * destruct (Huniq pre' m' post' Heq' Hpre') as [_ ->].
        -- intros [Hnf|(a & Ha & Hnone)]; congruence.
        -- congruence.
  - rewrite (Hfail pre m post x Heq Hpre Hx). split.
    + intros [= <-]. right. eauto 10.
    + intros [[-> [Hall|(pre' & m' & post' & attrs' & Heq' & Hpre' & Hm' & Hv')]]
             |(pre' & m' & post' & x' & Heq' & Hpre' & Hm' & ->)].
      * rewrite Heq in Hall. apply Forall_app in Hall as [_ Hall].
        apply Forall_cons in Hall as [[Hnf|(a & Ha & Hnone)] _]; congruence.
      * assert (resolve_loop import_module mn cn ps = Returns PyNone) as Hr
          by (apply Hret; right; eauto 10).
        rewrite (Hfail pre m post x Heq Hpre Hx) in Hr. done.
      * rewrite (Hfail pre' m' post' x' Heq' Hpre' Hm') in Hfail.
        by rewrite (Hfail pre m post x Heq Hpre Hx).
Qed.

(** ** Names without a module, and the names that [banana avail] lists *)

Lemma str_lstrip_length c s : String.length (str_lstrip c s) ≤ String.length s.
Proof.
  induction s as [|x s IH]; simpl; [done|]. case_decide; simpl; lia.
Qed.

Lemma str_lstrip_app c (s b : string) :
  s ≠ "" → str_lstrip c s = s → str_lstrip c (s +:+ b) = s +:+ b.
Proof.
  destruct s as [|x s]; [done|]. intros _. rewrite string_app_cons. simpl.
  case_decide; [|done]. intros Heq.
  pose proof (str_lstrip_length c s) as Hlen. rewrite Heq in Hlen.
  simpl in Hlen. lia.
Qed.

Lemma str_rstrip_app_l c (a b : string) :
  str_rstrip c b = "" → str_rstrip c (a +:+ b) = str_rstrip c a.
Proof.
  intros Hb. induction a as [|x a IH]; [done|].
  rewrite string_app_cons. simpl. by rewrite IH.
Qed.

Lemma str_rstrip_app_r c (a b : string) :
  str_rstrip c b ≠ "" → str_rstrip c (a +:+ b) = a +:+ str_rstrip c b.
Proof.
  intros Hb. induction a as [|x a IH]; [done|].
  rewrite !string_app_cons. simpl. rewrite IH.
  destruct (a +:+ str_rstrip c b) eqn:Heq; [|done].
  by apply string_app_eq_nil in Heq as [_ ?].
Qed.

Lemma str_strip_prefix_dot (pre : string) :
  pre ≠ "" → str_lstrip "."%char pre = pre → str_rstrip "."%char pre = pre →
  str_strip "."%char (pre +:+ "." +:+ "") = pre.
Proof.
  intros Hne Hl Hr. unfold str_strip.
  rewrite str_lstrip_app by done. by rewrite str_rstrip_app_l.
Qed.

(** X9: a class name without a dot is looked up in the prefix packages
    themselves: with a first prefix that neither begins nor ends with a dot
    and is a module with the class, [resolve_class] returns the class of
    that module, and no module of the bare name is imported. *)
Theorem resolve_unqualified (import_module : string → ImportOutcome)
    (class_str pre : string) (rest : list string)
    (attrs : string → option PyValue) (v : PyValue) :
  str_contains "."%char class_str = false →
  pre ≠ "" → str_lstrip "."%char pre = pre → str_rstrip "."%char pre = pre →
  import_module pre = Imported attrs → attrs class_str = Some v →
  v ≠ PyNone →
  candidates class_str (pre :: rest) = pre :: candidates class_str rest
  ∧ resolve_class import_module class_str (pre :: rest) = Returns v.
Proof.
  intros Hdot Hne Hl Hr Himp Hattr Hv.
  assert (module_name_of class_str = "" ∧ class_name_of class_str = class_str)
    as [Hm Hc].
  { unfold module_name_of, class_name_of.
    by rewrite (str_split_absent _ _ Hdot). }
  assert (candidates class_str (pre :: rest) = pre :: candidates class_str rest)
    as Hcand.
  { unfold candidates. rewrite Hm. rewrite decide_True by done.
    rewrite fmap_cons. by rewrite str_strip_prefix_dot. }
  split; [done|]. apply resolve_class_spec. split; [done|].
  exists [], pre, (candidates class_str rest), attrs.
  rewrite Hc. split_and!; [done | constructor | done | done].
Qed.

Lemma resolve_unqualified_witness :
  candidates "Foo" [DEFAULT_STUDY_CLASS_PATH] = [DEFAULT_STUDY_CLASS_PATH]
  ∧ resolve_class ex_import "Foo" [DEFAULT_STUDY_CLASS_PATH]
    = Returns (PyObject 2).
Proof.
  exact (resolve_unqualified ex_import "Foo" DEFAULT_STUDY_CLASS_PATH []
           (λ attr, if decide (attr = "Foo") then Some (PyObject 2)
                    else if decide (attr = "Nothing") then Some PyNone
                    else None)
           (PyObject 2) eq_refl ltac:(discriminate) eq_refl eq_refl eq_refl
           eq_refl ltac:(discriminate)).
Defined.

Lemma full_name_default (rest cls_name : string) :
  full_name (DEFAULT_STUDY_CLASS_PATH +:+ "." +:+ rest) cls_name
  = rest +:+ "." +:+ cls_name.
Proof. reflexivity. Qed.

(** X10: what [resolve_class], with the default prefix, makes of a name as
    [banana avail] lists it.  A class of the module banana.analysis.REST is
    listed as REST, a dot and the [__name__] of the class.  Of that name
    [resolve_class] first imports the module REST: an import that fails
    otherwise ends the call with its exception, and an attribute of the
    class name there is the answer.  Only when REST is not found or lacks
    the name is banana.analysis.REST imported, and the class is returned
    only if that module has it under its [__name__]: for a class that the
    module has under another name alone the listed name is not resolved. *)
Theorem listed_name_resolves (import_module : string → ImportOutcome)
    (rest cls_name : string) :
  str_contains "."%char cls_name = false →
  rest ≠ "" → str_lstrip "."%char rest = rest → str_rstrip "."%char rest = rest →
  full_name (DEFAULT_STUDY_CLASS_PATH +:+ "." +:+ rest) cls_name
  = rest +:+ "." +:+ cls_name
  ∧ resolve_class import_module
      (full_name (DEFAULT_STUDY_CLASS_PATH +:+ "." +:+ rest) cls_name)
      [DEFAULT_STUDY_CLASS_PATH]
    = let not_found :=
        Raises (BananaUsageError
                  ("Did not find class '" +:+ (rest +:+ "." +:+ cls_name)
                   +:+ "'")) in
      let found v :=
        match v with
        | PyNone => not_found
        | PyObject _ => Returns v
        end in
      let below :=
        match import_module (DEFAULT_STUDY_CLASS_PATH +:+ "." +:+ rest) with
        | Imported attrs =>
            match attrs cls_name with
            | Some v => found v
            | None => not_found
            end
        | ModuleNotFoundError => not_found
        | ImportFails e => Raises (External e)
        end in
      match import_module rest with
      | Imported attrs =>
          match attrs cls_name with
          | Some v => found v
          | None => below
          end
      | ModuleNotFoundError => below
      | ImportFails e => Raises (External e)
      end.
Proof.
  intros Hfree Hne Hl Hr. split; [done|]. rewrite full_name_default.
  destruct (class_path_parts_spec (rest +:+ "." +:+ cls_name) rest cls_name
              Hfree) as [Hparts _].
  destruct (proj1 Hparts eq_refl) as (_ & Hm & Hc).
  assert (str_strip "."%char rest = rest) as Hs1.
  { unfold str_strip. by rewrite Hl, Hr. }
  assert (str_strip "."%char (DEFAULT_STUDY_CLASS_PATH +:+ "." +:+ rest)
          = DEFAULT_STUDY_CLASS_PATH +:+ "." +:+ rest) as Hs2.
  { unfold str_strip.
    assert (str_rstrip "."%char rest ≠ "") as Hrne by by rewrite Hr.
    rewrite (str_lstrip_app _ DEFAULT_STUDY_CLASS_PATH) by done.
    rewrite str_rstrip_app_r.
    - by rewrite (str_rstrip_app_r _ "." rest Hrne), Hr.
    - rewrite (str_rstrip_app_r _ "." rest Hrne), Hr.
      by rewrite string_app_cons. }
  unfold resolve_class.
  change (str_join "." (removelast (str_split "."%char
                                      (rest +:+ "." +:+ cls_name))))
    with (module_name_of (rest +:+ "." +:+ cls_name)).
  change (List.last (str_split "."%char (rest +:+ "." +:+ cls_name)) "")
    with (class_name_of (rest +:+ "." +:+ cls_name)).
  rewrite Hm, Hc. cbn [fmap list_fmap resolve_loop].
  rewrite decide_False by done. rewrite Hs1.
  rewrite decide_False by (by rewrite string_app_cons).
  rewrite Hs2. cbn zeta.
  destruct (import_module rest) as [attrs| |e]; [| |done].
  - destruct (attrs cls_name) as [[|id]|]; [done | done |].
    destruct (import_module (DEFAULT_STUDY_CLASS_PATH +:+ "." +:+ rest))
      as [attrs'| |e']; [| done | done].
    by destruct (attrs' cls_name) as [[|id]|].
  - destruct (import_module (DEFAULT_STUDY_CLASS_PATH +:+ "." +:+ rest))
      as [attrs'| |e']; [| done | done].
    by destruct (attrs' cls_name) as [[|id]|].
Qed.

Lemma listed_name_resolves_witness :
  full_name "banana.analysis.mri.structural" "T1" = "mri.structural.T1"
  ∧ resolve_class ex_import
      (full_name "banana.analysis.mri.structural" "T1")
      [DEFAULT_STUDY_CLASS_PATH]
    = Returns (PyObject 1).
Proof.
  exact (listed_name_resolves ex_import "mri.structural" "T1"
           eq_refl ltac:(discriminate) eq_refl eq_refl).
Defined.

(** ** [DeriveCmd.run]: datasets and processors *)

(** X11: for a dataset of type 'xnat', [init_dataset] accepts one to three
    arguments and makes no directory; the password it hands to [XnatRepo]
    is always [None], and the user is the second argument only when there
    are three arguments, [None] otherwise. *)
Theorem xnat_credentials (ext : Externals) (scratch_dir dataset_path option_str : string)
    (dataset_args : list PyArg) (create_root : bool) :
  (init_dataset ext scratch_dir dataset_path "xnat" option_str dataset_args
     create_root).1 = []
  ∧ match (init_dataset ext scratch_dir dataset_path "xnat" option_str
             dataset_args create_root).2 with
    | Returns call =>
        1 ≤ length dataset_args ≤ 3
        ∧ ∃ server,
            dataset_args !! 0 = Some server
            ∧ call = NewXnatDataset server
                       (if decide (length dataset_args = 3)
                        then dataset_args !! 1 else None)
                       None (path_join ext scratch_dir "cache") dataset_path
    | Raises e =>
        (length dataset_args = 0 ∨ 3 < length dataset_args)
        ∧ ∃ msg, e = BananaUsageError msg
    end.
Proof.
  unfold init_dataset.
  rewrite decide_False by done. rewrite decide_False by done.
  rewrite decide_True by done. cbv zeta.
  destruct (decide (length dataset_args < 1)) as [Hlt|Hge]; simpl.
  { split; [done|]. split; [lia | eauto]. }
  destruct (decide (length dataset_args > 3)) as [Hgt|Hle]; simpl.
  { split; [done|]. split; [lia | eauto]. }
  split; [done|].
  destruct dataset_args as [|server rest]; [simpl in *; lia|]. simpl.
  split; [simpl in *; lia|]. exists server. split; [done|].
  repeat case_decide; simpl in *; try lia; done.
Qed.

(** X12: for a dataset type other than 'bids', 'basic' and 'xnat',
    [init_dataset] makes no directory and raises the usage error only when
    there is a further argument to name in it; with no further argument
    the lookup of that argument raises [IndexError] instead. *)
Theorem unknown_dataset_type (ext : Externals)
    (scratch_dir dataset_path dataset_type option_str : string)
    (dataset_args : list PyArg) (create_root : bool) :
  dataset_type ≠ "bids" → dataset_type ≠ "basic" → dataset_type ≠ "xnat" →
  init_dataset ext scratch_dir dataset_path dataset_type option_str
    dataset_args create_root
  = ([], match dataset_args with
         | [] => Raises IndexError
         | arg :: _ =>
             Raises (BananaUsageError
               ("Unrecognised dataset type provided as first argument "
                +:+ "to '--" +:+ option_str +:+ "' option ("
                +:+ format_arg ext arg +:+ ")"))
         end).
Proof.
  intros Hbids Hbasic Hxnat. unfold init_dataset.
  rewrite !decide_False by done. by destruct dataset_args.
Qed.

Lemma unknown_dataset_type_witness :
  "local" ≠ "bids" ∧ "local" ≠ "basic" ∧ "local" ≠ "xnat"
  ∧ init_dataset (mkExternals (λ a b, a +:+ "/" +:+ b) (λ _, None)
                    (λ _, "") (λ _, "") 1)
      "scratch" "data" "local" "dataset" [] true
    = ([], Raises IndexError).
Proof.
  assert ("local" ≠ "bids") as H1 by discriminate.
  assert ("local" ≠ "basic") as H2 by discriminate.
  assert ("local" ≠ "xnat") as H3 by discriminate.
  split_and!; [exact H1 | exact H2 | exact H3 |].
  exact (unknown_dataset_type
           (mkExternals (λ a b, a +:+ "/" +:+ b) (λ _, None) (λ _, "")
              (λ _, "") 1)
           "scratch" "data" "local" "dataset" [] true H1 H2 H3).
Defined.


(** X14: the choice of the processor succeeds exactly for 'single', for
    'multi', and for 'slurm' with an e-mail address and at most two further
    arguments.  For 'multi' no argument list is refused: the number of
    processes is the second word as it was typed, or [cpu_count()], and
    further words are ignored. *)
Theorem processor_choice (ext : Externals) (processor : list string)
    (email : option string) (work_dir : string) (reprocess : bool) :
  ((∃ call, select_processor ext processor email work_dir reprocess
            = Returns call) ↔
   ∃ kind, processor !! 0 = Some kind
           ∧ (kind = "single" ∨ kind = "multi"
              ∨ (kind = "slurm" ∧ is_Some email ∧ length processor ≤ 3)))
  ∧ ∀ rest,
      select_processor ext ("multi" :: rest) email work_dir reprocess
      = Returns (NewMultiProc work_dir
                   match rest with
                   | [] => ArgInt (cpu_count ext)
                   | num_processes :: _ => ArgStr num_processes
                   end
                   reprocess).
Proof.
  split.
  - unfold select_processor.
    destruct processor as [|kind rest]; simpl.
    { split; [by intros [? ?] | by intros (? & ? & _)]. }
    destruct (decide (kind = "single")) as [->|Hsingle].
    { split; [|by eauto]. intros _. exists "single". eauto. }
    destruct (decide (kind = "multi")) as [->|Hmulti].
    { split.
      - intros _. exists "multi". eauto.
      - intros _. destruct rest as [|n rest]; simpl; [|by eauto].
        repeat case_decide; simpl in *; try lia; eauto. }
    destruct (decide (kind = "slurm")) as [->|Hslurm].
    { destruct email as [email|].
      - destruct (decide (S (length rest) > 3)) as [Hgt|Hle].
        + split; [by intros [? ?]|].
          intros (kind & [= <-] & [?|[?|(_ & _ & ?)]]); [done | done | lia].
        + split; [|by eauto]. intros _. exists "slurm".
          split; [done|]. right. right. split_and!; [done | by eexists | lia].
      - split; [by intros [? ?]|].
        intros (kind & [= <-] & [?|[?|(_ & [? ?] & _)]]); done. }
    split; [by intros [? ?]|].
    intros (kind' & [= <-] & [?|[?|(? & _)]]); done.
  - intros rest. unfold select_processor. simpl.
    destruct rest as [|n rest]; simpl; [|done].
    by repeat case_decide; simpl in *; try lia.
Qed.

(** ** [AvailableCmd.run] *)

Lemma avail_get_set cls cls' path available :
  avail_get cls' (avail_set cls path available)
  = if decide (cls = cls') then Some path else avail_get cls' available.
Proof.
  induction available as [|[c0 p0] available IH]; simpl.
  - repeat case_decide; congruence.
  - destruct (decide (c0 = cls)) as [->|Hne]; simpl.
    + repeat case_decide; congruence.
    + rewrite IH. repeat case_decide; congruence.
Qed.

Lemma avail_get_register cls cls' path available :
  avail_get cls' (register cls path available)
  = if decide (cls = cls') then shorter (avail_get cls' available) path
    else avail_get cls' available.
Proof.
  unfold register, shorter. destruct (decide (cls = cls')) as [->|Hne].
  - destruct (avail_get cls' available) as [old|] eqn:Hold.
    + case_decide; [|done]. rewrite avail_get_set. by rewrite decide_True.
    + rewrite avail_get_set. by rewrite decide_True.
  - destruct (avail_get cls available) as [old|].
    + case_decide; [|done]. rewrite avail_get_set. by rewrite decide_False.
    + rewrite avail_get_set. by rewrite decide_False.
Qed.

Lemma find_analysis_classes_listings is_analysis has_desc m path available :
  find_analysis_classes is_analysis has_desc m path available
  = fold_left (λ available e, register e.1 e.2 available)
      (listings is_analysis has_desc [(path, m)]) available.
Proof.
  unfold find_analysis_classes, listings. simpl. rewrite app_nil_r.
  revert available. induction m as [|[attr_name value] m IH]; intros available;
    [done|].
  cbn [fold_left omap list_omap fst snd].
  destruct (String.prefix "_" attr_name); [apply IH|].
  destruct value as [|cls]; [apply IH|].
  destruct (is_analysis cls && has_desc cls); [|apply IH].
  cbn [fold_left fst snd]. apply IH.
Qed.

Lemma find_all_listings is_analysis has_desc visited :
  find_all is_analysis has_desc visited
  = fold_left (λ available e, register e.1 e.2 available)
      (listings is_analysis has_desc visited) [].
Proof.
  unfold find_all. generalize (@nil (nat * string)).
  induction visited as [|[path m] visited IH]; intros available; [done|].
  cbn [fold_left fst snd]. rewrite IH, find_analysis_classes_listings.
  unfold listings. rewrite bind_singleton, bind_cons.
  by rewrite fold_left_app.
Qed.

Lemma elem_of_listings is_analysis has_desc visited cls path :
  (cls, path) ∈ listings is_analysis has_desc visited ↔
  ∃ m, (path, m) ∈ visited ∧ exposes is_analysis has_desc m cls.
Proof.
  unfold listings, exposes. rewrite list_elem_of_bind. split.
  - intros ([path' m] & Hin & Hm). simpl in Hin.
    apply list_elem_of_omap in Hin as ([attr_name value] & Hattr & Hsome).
    simpl in Hsome.
    destruct (String.prefix "_" attr_name) eqn:Hpub; [done|].
    destruct value as [|cls']; [done|].
    destruct (is_analysis cls' && has_desc cls') eqn:Hflags; [|done].
    injection Hsome as -> ->. apply andb_true_iff in Hflags as [? ?].
    exists m. split; [done|]. split_and!; [done | done |]. eauto.
  - intros (m & Hm & Ha & Hd & attr_name & Hattr & Hpub).
    exists (path, m). split; [|done]. simpl.
    apply list_elem_of_omap. exists (attr_name, AClass cls).
    split; [done|]. simpl. by rewrite Hpub, Ha, Hd.
Qed.

Lemma register_fold cls (es : list (nat * string)) available :
  avail_get cls (fold_left (λ available e, register e.1 e.2 available) es
                   available)
  = fold_left shorter (filter (λ e, e.1 = cls) es).*2 (avail_get cls available).
Proof.
  revert available. induction es as [|[c p] es IH]; intros available; [done|].
  cbn [fold_left fst snd]. rewrite IH, avail_get_register.
  destruct (decide (c = cls)) as [->|Hne].
  - by rewrite filter_cons_True by done.
  - by rewrite filter_cons_False by done.
Qed.

Lemma shorter_facts (kept : option string) (path : string) :
  ∃ s, shorter kept path = Some s
       ∧ (Some s = kept ∨ s = path)
       ∧ String.length s ≤ String.length path
       ∧ ∀ old, kept = Some old → String.length s ≤ String.length old.
Proof.
  unfold shorter. destruct kept as [old|].
  - case_decide.
    + exists path. split_and!; [done | by right | done |].
      intros ? [= <-]. lia.
    + exists old. split_and!; [done | by left | lia |]. by intros ? [= <-].
  - exists path. split_and!; [done | by right | done | done].
Qed.

Lemma shorter_fold (paths : list string) (kept : option string) :
  match fold_left shorter paths kept with
  | Some path =>
      (Some path = kept ∨ path ∈ paths)
      ∧ (∀ old, kept = Some old → String.length path ≤ String.length old)
      ∧ ∀ path', path' ∈ paths → String.length path ≤ String.length path'
  | None => kept = None ∧ paths = []
  end.
Proof.
  revert kept. induction paths as [|p paths IH]; intros kept.
  - simpl. destruct kept as [old|]; [|done].
    split_and!; [by left | by intros ? [= <-] |].
    intros ? []%elem_of_nil.
  - cbn [fold_left]. specialize (IH (shorter kept p)).
    destruct (shorter_facts kept p) as (s & Hs & Hfrom & Hsp & Hsold).
    rewrite Hs in IH |- *.
    destruct (fold_left shorter paths (Some s)) as [path|]; [|by destruct IH].
    destruct IH as (Hpath & Hle & Hmin). specialize (Hle s eq_refl).
    split_and!.
    + destruct Hpath as [[= ->]|Hin].
      * destruct Hfrom as [? | ->]; [by left|]. right. apply list_elem_of_here.
      * right. by apply list_elem_of_further.
    + intros old Hold. specialize (Hsold old Hold). lia.
    + intros path' [->|Hin]%elem_of_cons; [lia | by apply Hmin].
Qed.

(** X15: after the packages and modules have been searched, the path kept
    for a class is the path of one of the packages or modules that list
    the class, and no package or module that lists the class has a shorter
    path; a class is kept exactly when some package or module lists it
    (under a name that does not begin with an underscore, as an analysis
    class with a description of its own). *)
Theorem shortest_listed_path (is_analysis has_desc : nat → bool)
    (visited : list (string * list (string * PyAttr))) (cls : nat) :
  match avail_get cls (find_all is_analysis has_desc visited) with
  | Some path =>
      (∃ m, (path, m) ∈ visited ∧ exposes is_analysis has_desc m cls)
      ∧ ∀ path' m', (path', m') ∈ visited →
          exposes is_analysis has_desc m' cls →
          String.length path ≤ String.length path'
  | None =>
      ∀ path' m', (path', m') ∈ visited →
        ¬ exposes is_analysis has_desc m' cls
  end.
Proof.
  rewrite find_all_listings, register_fold. simpl.
  set (es := listings is_analysis has_desc visited).
  assert (∀ path, path ∈ (filter (λ e, e.1 = cls) es).*2 ↔ (cls, path) ∈ es)
    as Hpaths.
  { intros path. rewrite list_elem_of_fmap. split.
    - intros ([c p] & -> & [Hc Hin]%list_elem_of_filter). simpl in *.
      by subst.
    - intros Hin. exists (cls, path). split; [done|].
      by apply list_elem_of_filter. }
  pose proof (shorter_fold (filter (λ e, e.1 = cls) es).*2 None) as Hfold.
  destruct (fold_left shorter (filter (λ e, e.1 = cls) es).*2 None) as [path|].
  - destruct Hfold as ([[=]|Hin] & _ & Hmin). split.
    + by apply elem_of_listings, Hpaths.
    + intros path' m' Hin' Hexp. apply Hmin, Hpaths, elem_of_listings. eauto.
  - destruct Hfold as [_ Hnil]. intros path' m' Hin Hexp.
    assert ((cls, path') ∈ es) as Hes by (apply elem_of_listings; eauto).
    apply Hpaths in Hes. rewrite Hnil in Hes. by apply elem_of_nil in Hes.
Qed.

Lemma str_repeat_length c n : String.length (str_repeat c n) = n.
Proof. induction n as [|n IH]; simpl; [done | by rewrite IH]. Qed.

Lemma avail_rows_returns wrap_text desc_start rows texts msg :
  Forall2 (λ row text,
             wrap_text row.2 DEFAULT_LINE_LENGTH (desc_start + DEFAULT_INDENT)
             = Returns text) rows texts →
  avail_rows wrap_text desc_start rows msg
  = Returns (msg +:+ str_concat (zip_with (row_text desc_start) rows texts)).
Proof.
  intros Hall. revert msg.
  induction Hall as [|row text rows texts Hrow _ IH]; intros msg.
  - simpl. by rewrite string_app_nil_r.
  - cbn [avail_rows zip_with str_concat]. rewrite Hrow, IH. f_equal.
    unfold row_text. by rewrite !string_app_assoc.
Qed.

Lemma avail_rows_raises wrap_text desc_start pre row post e msg :
  Forall (λ row', ∃ text,
            wrap_text row'.2 DEFAULT_LINE_LENGTH (desc_start + DEFAULT_INDENT)
            = Returns text) pre →
  wrap_text row.2 DEFAULT_LINE_LENGTH (desc_start + DEFAULT_INDENT) = Raises e →
  avail_rows wrap_text desc_start (pre ++ row :: post) msg = Raises e.
Proof.
  intros Hpre Hrow. revert msg.
  induction Hpre as [|row' pre [text Htext] _ IH]; intros msg.
  - cbn [app avail_rows]. by rewrite Hrow.
  - cbn [app avail_rows]. rewrite Htext. apply IH.
Qed.

Example avail_message_sample :
  avail_message ex_wrap [("mri.T1", "T1-weighted"); ("Foo", "foo")]
  = Returns (newline +:+ "The following Analysis classes are available:"
             +:+ newline +:+ "    mri.T1    T1-weighted"
             +:+ newline +:+ "    Foo       foo" +:+ newline).
Proof. reflexivity. Qed.

Example avail_message_long_name :
  avail_message ex_wrap [("Foo", "foo"); (str_repeat "x" 72, "long")]
  = Raises (External "ArcanaUsageError").
Proof. reflexivity. Qed.

(** X16: with no class to list, the table cannot be laid out and
    [ValueError] is raised.  Otherwise every description is wrapped with one
    and the same indent, the length of the longest name and [DEFAULT_SPACER]
    and [DEFAULT_INDENT].  When [wrap_text] returns for every row, the text
    is the heading, a line for each row and a line break, and the
    descriptions all begin in one column, every name being followed by
    blanks up to that width.  When [wrap_text] raises for a row, and
    returns for the rows before it, its exception leaves the command, and
    no text is made. *)
Theorem avail_table (wrap_text : string → nat → nat → Outcome string)
    (to_print : list (string * string)) :
  match to_print with
  | [] => avail_message wrap_text to_print = Raises ValueError
  | _ :: _ =>
      ∃ desc_start,
        (∀ texts,
           Forall2 (λ row text,
                      wrap_text row.2 DEFAULT_LINE_LENGTH
                        (desc_start + DEFAULT_INDENT) = Returns text)
                   to_print texts →
           avail_message wrap_text to_print
           = Returns ((newline +:+ "The following Analysis classes are available:")
                      +:+ str_concat (zip_with (row_text desc_start)
                                               to_print texts)
                      +:+ newline))
        ∧ (∀ pre row post e,
             to_print = pre ++ row :: post →
             Forall (λ row', ∃ text,
                       wrap_text row'.2 DEFAULT_LINE_LENGTH
                         (desc_start + DEFAULT_INDENT) = Returns text) pre →
             wrap_text row.2 DEFAULT_LINE_LENGTH (desc_start + DEFAULT_INDENT)
             = Raises e →
             avail_message wrap_text to_print = Raises e)
        ∧ (∀ row, row ∈ to_print →
             String.length row.1 + DEFAULT_SPACER ≤ desc_start
             ∧ String.length
                 (str_repeat " " DEFAULT_INDENT +:+ row.1
                  +:+ str_repeat " " (desc_start - String.length row.1))
               = DEFAULT_INDENT + desc_start)
        ∧ ∃ row, row ∈ to_print
                 ∧ String.length row.1 + DEFAULT_SPACER = desc_start
  end.
Proof.
  destruct to_print as [|row0 rows]; [done|].
  set (to_print := row0 :: rows).
  set (lens := (λ l : string * string, String.length l.1) <$> to_print).
  exists (max_list lens + DEFAULT_SPACER). split_and!.
  - intros texts Hall. unfold avail_message. fold to_print. fold lens.
    cbn zeta. rewrite (avail_rows_returns _ _ _ texts) by done.
    by rewrite string_app_assoc.
  - intros pre row post e Heq Hpre Hrow.
    change (avail_message wrap_text to_print)
      with (match avail_rows wrap_text (max_list lens + DEFAULT_SPACER) to_print
                    (newline +:+ "The following Analysis classes are available:")
            with
            | Returns msg => Returns (msg +:+ newline)
            | Raises e => Raises e
            end).
    rewrite Heq. by rewrite (avail_rows_raises _ _ pre row post e).
  - intros row Hrow.
    assert (String.length row.1 ≤ max_list lens) as Hle.
    { apply max_list_elem_of_le, list_elem_of_fmap. eauto. }
    split; [lia|].
    rewrite !string_length_app, !str_repeat_length. unfold DEFAULT_SPACER. lia.
  - assert (max_list lens ∈ lens) as ([name desc] & Hmax & Hin)%list_elem_of_fmap
      by by apply max_list_elem_of.
    exists (name, desc). split; [done|]. simpl in *. lia.
Qed.
